(** * The Codex post-install bootstrap ([scripts/postinstall-codex-global.js])

    A shallow embedding of the installer script and the properties of its
    run: exit statuses, the files it creates, and the operations it performs
    on the file system and on sub-processes.

    Modelling conventions.
    - A JavaScript string is the list of its UTF-16 code units.
    - The file system is a finite map from path strings to nodes; a file
      carries its bytes and its permission bits.  Paths are compared as
      they are spelled: a node is found under one spelling, the absolute
      path in normal form, and links or names that differ by case only are
      not described.  Statements that spell paths out are therefore made
      for directories in normal form ([normal_dir]), where [path.join]
      only appends.
    - [process.cwd()] and [os.homedir()] are taken to answer: a run in
      which one of them throws (a working directory that was removed, a
      user without a home entry) is not described.
    - The process environment, the platform, the clock, the outcome of
      sub-processes and the failures of system calls are inputs of a run,
      gathered in a [World] record.  Sub-processes are opaque: they are
      given by their result and do not act on the modelled files.
    - A computation threads the file system, appends to a journal of the
      operations it performed, and ends by returning, by [process.exit], or
      by throwing. *)

From Stdlib Require Import ZArith NArith List String Ascii Bool Lia.
From stdpp Require Import base option list gmap pretty.

Local Open Scope N_scope.

(** ** JavaScript strings *)

Definition lit (s : string) : list N :=
  map N_of_ascii (list_ascii_of_string s).
Arguments lit s%_string.

(** [!!s] for a string [s]: only the empty string is falsy. *)
Definition truthy (s : list N) : bool :=
  match s with [] => false | _ :: _ => true end.

(** [a || b || c] as in [os.homedir() || process.env.HOME || process.env.USERPROFILE];
    the result is [None] for [undefined]. *)
Definition or_chain (a : list N) (b c : option (list N)) : option (list N) :=
  if truthy a then Some a
  else match b with
       | Some s => if truthy s then Some s else c
       | None => c
       end.

(** [!v] for a value that is a string or [undefined]. *)
Definition falsy (v : option (list N)) : bool :=
  match v with
  | Some s => negb (truthy s)
  | None => true
  end.

(** ECMAScript [WhiteSpace] and [LineTerminator] code units, the ones
    [String.prototype.trim] strips. *)
Definition is_js_space (c : N) : bool :=
  (c =? 0x9) || (c =? 0xA) || (c =? 0xB) || (c =? 0xC) || (c =? 0xD)
  || (c =? 0x20) || (c =? 0xA0) || (c =? 0x1680)
  || ((0x2000 <=? c) && (c <=? 0x200A))
  || (c =? 0x2028) || (c =? 0x2029) || (c =? 0x202F) || (c =? 0x205F)
  || (c =? 0x3000) || (c =? 0xFEFF).

Fixpoint trim_start (s : list N) : list N :=
  match s with
  | c :: s' => if is_js_space c then trim_start s' else s
  | [] => []
  end.

Definition trim_end (s : list N) : list N := rev (trim_start (rev s)).

(** [s.trim()] *)
Definition trim (s : list N) : list N := trim_end (trim_start s).

(** Decimal rendering of a number, as template literals do. *)
Definition dec (n : N) : list N := lit (pretty n).
Definition decZ (z : Z) : list N := lit (pretty z).

(** [String(n).padStart(2, '0')] *)
Definition pad (n : N) : list N :=
  let s := dec n in
  if (length s <? 2)%nat then repeat 48 (2 - length s)%nat ++ s else s.

Fixpoint octal_digits (fuel : nat) (n : N) (acc : list N) : list N :=
  match fuel with
  | O => acc
  | S fuel' =>
      let acc' := (48 + n mod 8) :: acc in
      if n / 8 =? 0 then acc' else octal_digits fuel' (n / 8) acc'
  end.

(** [n.toString(8)] *)
Definition to_octal (n : N) : list N :=
  octal_digits (S (N.to_nat (N.log2 n))) n [].

Definition bool_str (b : bool) : list N :=
  if b then lit "true" else lit "false".

(** [xs.join(' ')] *)
Fixpoint join_space (xs : list (list N)) : list N :=
  match xs with
  | [] => []
  | [x] => x
  | x :: rest => x ++ lit " " ++ join_space rest
  end.

(** UTF-8 encoding of a string, as [fs.writeFileSync] and
    [Buffer.byteLength] apply it: a surrogate pair gives one four-byte
    sequence and a lone surrogate gives U+FFFD. *)
Definition utf8_cp (cp : N) : list N :=
  if cp <? 0x80 then [cp]
  else if cp <? 0x800 then
    [N.lor 0xC0 (N.shiftr cp 6); N.lor 0x80 (N.land cp 0x3F)]
  else if cp <? 0x10000 then
    [N.lor 0xE0 (N.shiftr cp 12);
     N.lor 0x80 (N.land (N.shiftr cp 6) 0x3F);
     N.lor 0x80 (N.land cp 0x3F)]
  else
    [N.lor 0xF0 (N.shiftr cp 18);
     N.lor 0x80 (N.land (N.shiftr cp 12) 0x3F);
     N.lor 0x80 (N.land (N.shiftr cp 6) 0x3F);
     N.lor 0x80 (N.land cp 0x3F)].

Definition is_high_surrogate (c : N) : bool := (0xD800 <=? c) && (c <? 0xDC00).
Definition is_low_surrogate (c : N) : bool := (0xDC00 <=? c) && (c <? 0xE000).

Fixpoint utf8 (s : list N) : list N :=
  match s with
  | [] => []
  | c :: rest =>
      if is_high_surrogate c then
        match rest with
        | lo :: rest' =>
            if is_low_surrogate lo then
              utf8_cp (0x10000 + N.shiftl (c - 0xD800) 10 + (lo - 0xDC00))
                ++ utf8 rest'
            else utf8_cp 0xFFFD ++ utf8 rest
        | [] => utf8_cp 0xFFFD
        end
      else if is_low_surrogate c then utf8_cp 0xFFFD ++ utf8 rest
      else utf8_cp c ++ utf8 rest
  end.

(** ** The inputs of a run *)

(** What [os], [process] and the clock answer, and how system calls and
    sub-processes turn out. *)

Record js_error := {
  err_message : list N;      (* err.message *)
  err_stack : list N;        (* err.stack *)
  err_string : list N;       (* String(err) *)
}.

(** The object [spawnSync] returns, with the time the call took. *)
Record spawn_return := {
  sp_status : option Z;              (* null when killed or not spawned *)
  sp_signal : option (list N);
  sp_stdout : option (list N);
  sp_stderr : option (list N);
  sp_error : option js_error;
  sp_elapsed_ms : N;
}.

Inductive fs_call :=
  | CallMkdir (p : list N)
  | CallReadFile (p : list N)
  | CallWriteFile (p : list N)
  | CallChmod (p : list N)
  | CallStat (p : list N).

Inductive errno := ENOENT | EEXIST | EISDIR.

(** [new Date()] read through its local-time getters. *)
Record date := {
  getFullYear : N; getMonth : N; getDate : N;
  getHours : N; getMinutes : N; getSeconds : N;
}.

Record World := {
  os_homedir : list N;                     (* os.homedir() *)
  env : gmap (list N) (list N);            (* process.env *)
  cwd : list N;                            (* process.cwd() *)
  platform : list N;                       (* process.platform *)
  arch : list N;                           (* process.arch *)
  version : list N;                        (* process.version *)
  execPath : list N;                       (* process.execPath *)
  pid : N;                                 (* process.pid *)
  now : date;                              (* new Date() at start-up *)
  umask : N;                               (* the process's file mode mask *)
  spawn : list N -> list (list N) -> spawn_return;
  (* a system call that fails for a reason outside the model *)
  io_fault : fs_call -> option js_error;
  (* the error object the runtime builds for a failure the model decides *)
  sys_error : errno -> fs_call -> js_error;
}.

(** ** The file system *)

Inductive node :=
  | File (content : list N) (mode : N)
  | Dir (mode : N).

Record stats := { st_mode : N }.

(** ** The journal of a run *)

Inductive level := LInfo | LWarn | LError.
Inductive stream := Stdout | Stderr.

Inductive event :=
  | EvConsole (l : level) (line : list N)        (* console.log / warn / error *)
  | EvOutput (s : stream) (text : list N)        (* process.stdout/stderr.write *)
  | EvExists (p : list N) (found : bool)         (* fs.existsSync *)
  | EvMkdir (p : list N)                         (* fs.mkdirSync *)
  | EvReadFile (p : list N)                      (* fs.readFileSync *)
  | EvWriteFile (p : list N) (data : list N) (mode : N)   (* fs.writeFileSync *)
  | EvChmod (p : list N) (mode : N)              (* fs.chmodSync *)
  | EvStat (p : list N)                          (* fs.statSync *)
  | EvSpawn (cmd : list N) (args : list (list N)) (r : spawn_return).

(** ** Computations *)

Inductive ctl (A : Type) :=
  | Ret (a : A)                (* the call returns *)
  | Exit (code : Z)            (* process.exit(code) *)
  | Throw (e : js_error).      (* an exception propagates *)
Arguments Ret {A} a.
Arguments Exit {A} code.
Arguments Throw {A} e.

Record res (A : Type) := MkRes {
  val : ctl A;
  fs_of : gmap (list N) node;
  evs : list event;
}.
Arguments MkRes {A} val fs_of evs.
Arguments val {A} r.
Arguments fs_of {A} r.
Arguments evs {A} r.

Definition M (A : Type) : Type := gmap (list N) node -> res A.

Definition ret {A} (a : A) : M A := fun fs => MkRes (Ret a) fs [].

Definition bind {A B} (m : M A) (k : A -> M B) : M B := fun fs =>
  let r := m fs in
  match val r with
  | Ret a => let r' := k a (fs_of r) in
             MkRes (val r') (fs_of r') (evs r ++ evs r')
  | Exit c => MkRes (Exit c) (fs_of r) (evs r)
  | Throw e => MkRes (Throw e) (fs_of r) (evs r)
  end.

Declare Scope js_scope.
Delimit Scope js_scope with js.
Notation "x <- m ;; k" := (bind m (fun x => k))
  (at level 100, m at next level, right associativity) : js_scope.
Notation "m ;;; k" := (bind m (fun _ => k))
  (at level 100, right associativity) : js_scope.
Local Open Scope js_scope.

Definition throw {A} (e : js_error) : M A := fun fs => MkRes (Throw e) fs [].

(** [process.exit(code)] *)
Definition process_exit {A} (code : Z) : M A := fun fs => MkRes (Exit code) fs [].

(** [try { m } catch (err) { h err }] *)
Definition try_catch {A} (m : M A) (h : js_error -> M A) : M A := fun fs =>
  let r := m fs in
  match val r with
  | Throw e => let r' := h e (fs_of r) in
               MkRes (val r') (fs_of r') (evs r ++ evs r')
  | _ => r
  end.

Definition emit (e : event) : M unit := fun fs => MkRes (Ret tt) fs [e].
Definition get_fs : M (gmap (list N) node) := fun fs => MkRes (Ret fs) fs [].
Definition put_fs (fs' : gmap (list N) node) : M unit := fun _ => MkRes (Ret tt) fs' [].

(** A system call first meets the failures the model leaves open. *)
Definition may_fail (w : World) (c : fs_call) : M unit :=
  match io_fault w c with
  | Some e => throw e
  | None => ret tt
  end.

(** ** System calls on files *)

(** The octal literals of the script. *)
Definition o600 : N := 0x180.     (* 0o600 *)
Definition o777 : N := 0x1FF.     (* 0o777 *)
Definition o7777 : N := 0xFFF.    (* 0o7777 *)

(** The model decides the outcome of a call from the node found at its
    path.  Directories above a path are not tracked: the model does not
    show the missing ancestors that a recursive [mkdirSync] creates, and
    the properties of the files a run leaves are stated of paths that are
    not above [~/.codex].  A call that fails leaves the modelled files as
    they were; what a write that fails half-way leaves at its own path is
    not described. *)

Definition lookup_exists (fs : gmap (list N) node) (p : list N) : bool :=
  match fs !! p with Some _ => true | None => false end.

(** [fs.existsSync(p)]: never throws. *)
Definition existsSync (p : list N) : M bool := fun fs =>
  MkRes (Ret (lookup_exists fs p)) fs [EvExists p (lookup_exists fs p)].

(** [fs.mkdirSync(p, { recursive: true })] *)
Definition mkdirSync (w : World) (p : list N) : M unit :=
  emit (EvMkdir p);;;
  may_fail w (CallMkdir p);;;
  fs <- get_fs;;
  match fs !! p with
  | Some (Dir _) => ret tt
  | Some (File _ _) => throw (sys_error w EEXIST (CallMkdir p))
  | None => put_fs (<[p := Dir (N.ldiff o777 (umask w))]> fs)
  end.

(** [fs.readFileSync(p)], giving the bytes of the file. *)
Definition readFileSync (w : World) (p : list N) : M (list N) :=
  emit (EvReadFile p);;;
  may_fail w (CallReadFile p);;;
  fs <- get_fs;;
  match fs !! p with
  | Some (File c _) => ret c
  | Some (Dir _) => throw (sys_error w EISDIR (CallReadFile p))
  | None => throw (sys_error w ENOENT (CallReadFile p))
  end.

(** [fs.writeFileSync(p, data, { mode })]: the mode only counts when the
    file is created, and the process's mask applies to it. *)
Definition writeFileSync (w : World) (p : list N) (data : list N) (mode : N) : M unit :=
  emit (EvWriteFile p data mode);;;
  may_fail w (CallWriteFile p);;;
  fs <- get_fs;;
  match fs !! p with
  | Some (File _ m) => put_fs (<[p := File data m]> fs)
  | Some (Dir _) => throw (sys_error w EISDIR (CallWriteFile p))
  | None => put_fs (<[p := File data (N.ldiff mode (umask w))]> fs)
  end.

(** [fs.chmodSync(p, mode)] *)
Definition chmodSync (w : World) (p : list N) (mode : N) : M unit :=
  emit (EvChmod p mode);;;
  may_fail w (CallChmod p);;;
  fs <- get_fs;;
  match fs !! p with
  | Some (File c _) => put_fs (<[p := File c mode]> fs)
  | Some (Dir _) => put_fs (<[p := Dir mode]> fs)
  | None => throw (sys_error w ENOENT (CallChmod p))
  end.

(** The file-type bits of [st.mode]. *)
Definition S_IFMT : N := 0xF000.     (* 0o170000 *)
Definition S_IFREG : N := 0x8000.    (* 0o100000 *)
Definition S_IFDIR : N := 0x4000.    (* 0o040000 *)

(** [fs.statSync(p)]: [st.mode] holds the type of the node above its
    permission bits. *)
Definition statSync (w : World) (p : list N) : M stats :=
  emit (EvStat p);;;
  may_fail w (CallStat p);;;
  fs <- get_fs;;
  match fs !! p with
  | Some (File _ m) => ret {| st_mode := N.lor S_IFREG (N.land m o7777) |}
  | Some (Dir m) => ret {| st_mode := N.lor S_IFDIR (N.land m o7777) |}
  | None => throw (sys_error w ENOENT (CallStat p))
  end.

(** ** Paths *)

(** [path.sep] *)
Definition sep (w : World) : list N :=
  if bool_decide (platform w = lit "win32") then [0x5C] (* backslash *) else lit "/".

(** [path.join(base, ...names)] for a base directory in normal form
    ([normal_dir] below) and plain names: the names are appended, each
    after a separator.  For another base [path.join] also normalises the
    result, which this definition does not. *)
Definition path_join (w : World) (base : list N) (names : list (list N)) : list N :=
  fold_left (fun acc name => acc ++ sep w ++ name) names base.

(** [s.split(c)] *)
Fixpoint split_on (c : N) (s : list N) : list (list N) :=
  match s with
  | [] => [[]]
  | x :: rest =>
      if x =? c then [] :: split_on c rest
      else match split_on c rest with
           | seg :: segs => (x :: seg) :: segs
           | [] => [[x]]
           end
  end.

(** A path segment that normalisation keeps: not empty, not [.] and not [..]. *)
Definition plain_name (seg : list N) : bool :=
  truthy seg && negb (bool_decide (seg = lit ".")) && negb (bool_decide (seg = lit "..")).

(** A directory path in normal form: segments that normalisation keeps,
    each after one separator of the platform, the first of which may
    stand at the head of the path; no separator at the end, so that the
    root is not one; and on Windows no [/], which [path.join] would turn
    into a backslash. *)
Definition normal_dir (w : World) (s : list N) : bool :=
  let win := bool_decide (platform w = lit "win32") in
  negb (win && existsb (N.eqb 0x2F) s)
  && match split_on (if win then 0x5C else 0x2F) s with
     | first :: rest =>
         (plain_name first || (negb (truthy first) && match rest with [] => false | _ => true end))
         && forallb plain_name rest
     | [] => false
     end.

(** ** The script *)

(** [ts()], on the date read at start-up. *)
Definition ts (w : World) : list N :=
  let d := now w in
  dec (getFullYear d) ++ lit "-" ++ pad (getMonth d + 1) ++ lit "-" ++ pad (getDate d)
  ++ lit " " ++ pad (getHours d) ++ lit ":" ++ pad (getMinutes d) ++ lit ":" ++ pad (getSeconds d).

Definition PREFIX (w : World) : list N :=
  lit "[codex-postinstall " ++ ts w ++ lit " pid:" ++ dec (pid w) ++ lit "]".

Definition info (w : World) (msg : list N) : M unit :=
  emit (EvConsole LInfo (PREFIX w ++ lit " " ++ msg)).

Definition warn (w : World) (msg : list N) : M unit :=
  emit (EvConsole LWarn (PREFIX w ++ lit " WARN: " ++ msg)).

Definition error (w : World) (msg : list N) : M unit :=
  emit (EvConsole LError (PREFIX w ++ lit " ERROR: " ++ msg)).

Definition statSafe (w : World) (p : list N) : M (option stats) :=
  try_catch (st <- statSync w p;; ret (Some st)) (fun _ => ret None).

(** [modeStr(mode)]; [None] stands for a value that is not a number. *)
Definition modeStr (mode : option N) : list N :=
  match mode with
  | None => lit "n/a"
  | Some m => lit "0" ++ to_octal (N.land m o7777)
  end.

(** The object [runCapture] returns. *)
Record capture := {
  out_ok : bool;
  out_status : option Z;
  out_signal : option (list N);
  out_stdout : list N;
  out_stderr : list N;
  out_duration_ms : N;
  out_error : option js_error;
}.

(** [String(status)] for a status that may be [null]. *)
Definition status_str (s : option Z) : list N :=
  match s with Some z => decZ z | None => lit "null" end.

(** [err && err.message ? err.message : String(err)] *)
Definition err_text (e : js_error) : list N :=
  if truthy (err_message e) then err_message e else err_string e.

(** [err && err.stack ? err.stack : ''] *)
Definition err_trace (e : js_error) : list N :=
  if truthy (err_stack e) then err_stack e else [].

Definition when (b : bool) (m : M unit) : M unit := if b then m else ret tt.

Definition runCapture (w : World) (cmd : list N) (args : list (list N)) : M capture :=
  let res := spawn w cmd args in
  emit (EvSpawn cmd args res);;;
  let dur := sp_elapsed_ms res in
  let out := {|
    out_ok := bool_decide (sp_status res = Some 0%Z);
    out_status := sp_status res;
    out_signal := match sp_signal res with
                  | Some s => if truthy s then Some s else None
                  | None => None
                  end;
    out_stdout := default [] (sp_stdout res);
    out_stderr := default [] (sp_stderr res);
    out_duration_ms := dur;
    out_error := sp_error res;
  |} in
  info w (lit "run: " ++ cmd ++ lit " " ++ join_space args ++ lit " [status="
          ++ status_str (out_status out) ++ lit " dur=" ++ dec (out_duration_ms out)
          ++ lit "ms]");;;
  when (truthy (out_stdout out))
    (emit (EvOutput Stdout (PREFIX w ++ lit " stdout: " ++ out_stdout out)));;;
  when (truthy (out_stderr out))
    (emit (EvOutput Stderr (PREFIX w ++ lit " stderr: " ++ out_stderr out)));;;
  match out_error out with
  | Some e => error w (lit "spawn error: " ++ err_text e)
  | None => ret tt
  end;;;
  ret out.

(** [os.homedir() || process.env.HOME || process.env.USERPROFILE] *)
Definition home_of (w : World) : option (list N) :=
  or_chain (os_homedir w) (env w !! lit "HOME") (env w !! lit "USERPROFILE").

(** The paths the script computes. *)
Definition codexDir (w : World) (home : list N) : list N :=
  path_join w home [lit ".codex"].
Definition authPath (w : World) (home : list N) : list N :=
  path_join w (codexDir w home) [lit "auth.json"].
Definition destConfigPath (w : World) (home : list N) : list N :=
  path_join w (codexDir w home) [lit "config.toml"].
Definition repoConfigPath (w : World) : list N :=
  path_join w (cwd w) [lit ".codex"; lit "config.toml"].
Definition codexJs (w : World) : list N :=
  path_join w (cwd w) [lit "node_modules"; lit "@openai"; lit "codex"; lit "bin"; lit "codex.js"].
Definition binDir (w : World) : list N :=
  path_join w (cwd w) [lit "node_modules"; lit ".bin"].

(** [!secret || String(secret).trim().length === 0] *)
Definition secret_missing (secret : option (list N)) : bool :=
  falsy secret || (length (trim (default [] secret)) =? 0)%nat.

Definition ensureAuthFromEnvIfMissing (w : World) : M unit :=
  let home := home_of w in
  if falsy home then
    warn w (lit "Could not resolve home directory; skip ~/.codex/auth.json bootstrap")
  else
    let home := default [] home in
    let codexDir := codexDir w home in
    let authPath := authPath w home in
    authExists <- existsSync authPath;;
    info w (lit "auth path: " ++ authPath ++ lit " exists=" ++ bool_str authExists);;;
    if authExists then ret tt
    else
      let secret := env w !! lit "CODEX_AUTH_JSON" in
      if secret_missing secret then
        info w (lit "CODEX_AUTH_JSON not set; skipping auth.json creation")
      else
        let secret := default [] secret in
        try_catch
          (info w (lit "creating " ++ codexDir);;;
           mkdirSync w codexDir;;;
           let bytes := N.of_nat (length (utf8 secret)) in
           writeFileSync w authPath (utf8 secret) o600;;;
           try_catch (chmodSync w authPath o600) (fun _ => ret tt);;;
           st <- statSafe w authPath;;
           info w (lit "wrote auth to " ++ authPath ++ lit " size=" ++ dec bytes
                   ++ lit "B mode=" ++ match st with
                                       | Some st => modeStr (Some (st_mode st))
                                       | None => lit "n/a"
                                       end))
          (fun err =>
             error w (lit "Failed to write ~/.codex/auth.json: " ++ err_text err
                      ++ [0xA] ++ err_trace err);;;
             process_exit 1%Z).

Definition ensureConfigTomlFromRepo (w : World) : M unit :=
  let repoConfigPath := repoConfigPath w in
  info w (lit "repo config candidate: " ++ repoConfigPath);;;
  found <- existsSync repoConfigPath;;
  when (negb found)
    (error w (lit "::error::.codex/config.toml not found in repo; aborting per fail-fast policy");;;
     process_exit 2%Z);;;
  let home := home_of w in
  when (falsy home)
    (error w (lit "HOME not set; cannot locate ~/.codex for config.toml");;;
     process_exit 1%Z);;;
  let home := default [] home in
  let codexDir := codexDir w home in
  let destConfigPath := destConfigPath w home in
  try_catch
    (info w (lit "ensure ~/.codex dir: " ++ codexDir);;;
     mkdirSync w codexDir;;;
     content <- readFileSync w repoConfigPath;;
     info w (lit "read repo config bytes=" ++ dec (N.of_nat (length content)));;;
     writeFileSync w destConfigPath content o600;;;
     try_catch (chmodSync w destConfigPath o600) (fun _ => ret tt);;;
     st <- statSafe w destConfigPath;;
     info w (lit "installed config to " ++ destConfigPath ++ lit " size="
             ++ dec (N.of_nat (length content)) ++ lit "B mode="
             ++ match st with
                | Some st => modeStr (Some (st_mode st))
                | None => lit "n/a"
                end))
    (fun err =>
       error w (lit "Failed to install ~/.codex/config.toml: " ++ err_text err
                ++ [0xA] ++ err_trace err);;;
       process_exit 1%Z).

(** The value [findLocalCodexEntrypoint] returns when it finds one. *)
Record entrypoint := { command : list N; args : list (list N) }.

(** The [for (const name of candidates)] loop. *)
Fixpoint first_candidate (w : World) (binDir : list N) (candidates : list (list N))
  : M (option entrypoint) :=
  match candidates with
  | [] => ret None
  | name :: rest =>
      let candidate := path_join w binDir [name] in
      found <- existsSync candidate;;
      if found then
        info w (lit "resolved local codex binary at " ++ candidate);;;
        ret (Some {| command := candidate; args := [] |})
      else first_candidate w binDir rest
  end.

Definition candidates (w : World) : list (list N) :=
  if bool_decide (platform w = lit "win32")
  then [lit "codex.cmd"; lit "codex.exe"; lit "codex"]
  else [lit "codex"].

Definition findLocalCodexEntrypoint (w : World) : M (option entrypoint) :=
  let codexJs := codexJs w in
  found <- existsSync codexJs;;
  if found then
    let nodeBin := if truthy (execPath w) then execPath w else lit "node" in
    info w (lit "resolved local codex.js at " ++ codexJs ++ lit " using node " ++ nodeBin);;;
    ret (Some {| command := nodeBin; args := [codexJs] |})
  else
    first_candidate w (binDir w) (candidates w).

Definition verifyLocalCodex (w : World) (entry : entrypoint) : M unit :=
  res <- runCapture w (command entry) (args entry ++ [lit "--version"]);;
  when (negb (out_ok res))
    (error w (lit "Local Codex CLI invocation failed; ensure @openai/codex is installed");;;
     process_exit (match out_status res with None => 1%Z | Some s => s end));;;
  info w (lit "codex installation verified via local dependency").

(** [process.env.PATH] inside a template literal. *)
Definition env_str (v : option (list N)) : list N :=
  match v with Some s => s | None => lit "undefined" end.

Definition main (w : World) : M unit :=
  info w (lit "=== BEGIN codex postinstall (local) ===");;;
  info w (lit "node: " ++ version w ++ lit " platform: " ++ platform w
          ++ lit " arch: " ++ arch w);;;
  info w (lit "cwd: " ++ cwd w);;;
  info w (lit "PATH: " ++ env_str (env w !! lit "PATH"));;;
  whichNode <- runCapture w
    (if bool_decide (platform w = lit "win32") then lit "where" else lit "which")
    [lit "node"];;
  info w (lit "node resolved ok=" ++ bool_str (out_ok whichNode));;;
  ensureAuthFromEnvIfMissing w;;;
  ensureConfigTomlFromRepo w;;;
  entry <- findLocalCodexEntrypoint w;;
  match entry with
  | None =>
      error w (lit "Could not resolve local Codex CLI. Run `npm install` to install @openai/codex.");;;
      process_exit 1%Z
  | Some entry =>
      verifyLocalCodex w entry;;;
      info w (lit "=== END codex postinstall (local) ===")
  end.

(** The status the process ends with: the argument of [process.exit], 0
    when [main] returns, 1 for an exception nobody catches. *)
Definition exit_status {A} (r : res A) : Z :=
  match val r with
  | Ret _ => 0%Z
  | Exit c => c
  | Throw _ => 1%Z
  end.

(** ** Sample runs *)

Definition sample_sys_error (e : errno) (c : fs_call) : js_error :=
  let text := match e with
              | ENOENT => lit "ENOENT: no such file or directory"
              | EEXIST => lit "EEXIST: file already exists"
              | EISDIR => lit "EISDIR: illegal operation on a directory"
              end in
  {| err_message := text; err_stack := lit "Error: " ++ text;
     err_string := lit "Error: " ++ text |}.

Definition exited (status : Z) (stdout : list N) : spawn_return :=
  {| sp_status := Some status; sp_signal := None; sp_stdout := Some stdout;
     sp_stderr := Some []; sp_error := None; sp_elapsed_ms := 12 |}.

Definition killed : spawn_return :=
  {| sp_status := None; sp_signal := Some (lit "SIGKILL"); sp_stdout := Some [];
     sp_stderr := Some []; sp_error := None; sp_elapsed_ms := 12 |}.

(** A Linux machine whose [which] works and whose other commands end with
    [codex_result]. *)
Definition linux_world (home : list N) (vars : list (list N * list N))
    (codex_result : spawn_return) : World :=
  {| os_homedir := home;
     env := list_to_map vars;
     cwd := lit "/repo";
     platform := lit "linux";
     arch := lit "x64";
     version := lit "v20.11.0";
     execPath := lit "/usr/bin/node";
     pid := 4242;
     now := {| getFullYear := 2024; getMonth := 0; getDate := 5;
               getHours := 9; getMinutes := 30; getSeconds := 7 |};
     umask := 0x12;
     spawn := fun cmd _ =>
       if bool_decide (cmd = lit "which") then exited 0 (lit "/usr/bin/node")
       else codex_result;
     io_fault := fun _ => None;
     sys_error := sample_sys_error |}.

Definition toml : list N := utf8 (lit "model = 'o3'").

(** A checkout with its configuration file and the installed CLI. *)
Definition fs_repo : gmap (list N) node :=
  {[ lit "/repo/.codex/config.toml" := File toml 0x1A4;
     lit "/repo/node_modules/@openai/codex/bin/codex.js" := File (utf8 (lit "#!node")) 0x1ED ]}.

(** A checkout with the installed CLI and no configuration file. *)
Definition fs_no_config : gmap (list N) node :=
  {[ lit "/repo/node_modules/@openai/codex/bin/codex.js" := File (utf8 (lit "#!node")) 0x1ED ]}.


(** A checkout and a home that already holds a credential file. *)
Definition fs_with_auth : gmap (list N) node :=
  <[ lit "/home/u/.codex/auth.json" := File (utf8 (lit "old")) 0x1A4 ]> fs_repo.

(** The CLI answers the version query; no credential variable. *)
Definition w_plain : World :=
  linux_world (lit "/home/u") [] (exited 0 (lit "codex 1.0")).

(** The same with the credential variable set. *)
Definition w_secret : World :=
  linux_world (lit "/home/u") [(lit "CODEX_AUTH_JSON", lit "secret-blob")]
    (exited 0 (lit "codex 1.0")).

(** The credential variable holds one space. *)
Definition w_blank : World :=
  linux_world (lit "/home/u") [(lit "CODEX_AUTH_JSON", lit " ")]
    (exited 0 (lit "codex 1.0")).

(** The version query ends with status 3. *)
Definition w_status3 : World :=
  linux_world (lit "/home/u") [] (exited 3 []).

(** The version query is killed by a signal. *)
Definition w_killed : World :=
  linux_world (lit "/home/u") [] killed.

(** A machine on which no home directory can be found. *)
Definition w_homeless : World :=
  linux_world [] [] (exited 0 (lit "codex 1.0")).

(** ** Notions used in the statements *)

(** Lines 182-189 of [main]: resolution, then verification. *)
Definition resolve_and_verify (w : World) : M unit :=
  entry <- findLocalCodexEntrypoint w;;
  match entry with
  | None =>
      error w (lit "Could not resolve local Codex CLI. Run `npm install` to install @openai/codex.");;;
      process_exit 1%Z
  | Some entry =>
      verifyLocalCodex w entry;;;
      info w (lit "=== END codex postinstall (local) ===")
  end.

(** Lines 179-180 of [main]: the two provisioning steps. *)
Definition provision (w : World) : M unit :=
  ensureAuthFromEnvIfMissing w;;;
  ensureConfigTomlFromRepo w.

(** Lines 179-189 of [main]: what follows the environment probe. *)
Definition after_probe (w : World) : M unit :=
  ensureAuthFromEnvIfMissing w;;;
  ensureConfigTomlFromRepo w;;;
  resolve_and_verify w.

(** The command of the environment probe. *)
Definition which_cmd (w : World) : list N :=
  if bool_decide (platform w = lit "win32") then lit "where" else lit "which".

(** Log lines and output, as opposed to system calls. *)
Definition is_print (e : event) : bool :=
  match e with
  | EvConsole _ _ | EvOutput _ _ => true
  | _ => false
  end.

(** Calls that change the file system. *)
Definition is_fs_write (e : event) : bool :=
  match e with
  | EvMkdir _ | EvWriteFile _ _ _ | EvChmod _ _ => true
  | _ => false
  end.

(** Calls that read or change the node at [p]; [fs.existsSync] is not one. *)
Definition reads_or_modifies (p : list N) (e : event) : Prop :=
  match e with
  | EvMkdir q | EvReadFile q | EvWriteFile q _ _ | EvChmod q _ | EvStat q => q = p
  | _ => False
  end.

(** The events of the environment probe. *)
Definition probe_event (w : World) (e : event) : Prop :=
  is_print e = true \/ e = EvSpawn (which_cmd w) [lit "node"] (spawn w (which_cmd w) [lit "node"]).

(** The file-system writes of the credential step, for the home [h] and
    the value [v] of the variable. *)
Definition credential_write (w : World) (h v : list N) (e : event) : Prop :=
  e = EvMkdir (codexDir w h)
  \/ e = EvWriteFile (authPath w h) (utf8 v) o600
  \/ e = EvChmod (authPath w h) o600.

(** The credential step has nothing to do: no home, a destination that
    exists, or no value to put there. *)
Definition credential_skips (w : World) (fs : gmap (list N) node) : Prop :=
  falsy (home_of w) = true
  \/ lookup_exists fs (authPath w (default [] (home_of w))) = true
  \/ secret_missing (env w !! lit "CODEX_AUTH_JSON") = true.

(** The entrypoint the search order prescribes. *)
Definition expected_entrypoint (w : World) (fs : gmap (list N) node) : option entrypoint :=
  if lookup_exists fs (codexJs w) then
    Some {| command := if truthy (execPath w) then execPath w else lit "node";
            args := [codexJs w] |}
  else
    match List.find (fun name => lookup_exists fs (path_join w (binDir w) [name]))
                    (candidates w) with
    | Some name => Some {| command := path_join w (binDir w) [name]; args := [] |}
    | None => None
    end.


(** A relative path written with [/], in the spelling of Windows. *)
Definition backslashed (rel : list N) : list N :=
  map (fun c => if c =? 0x2F then 0x5C else c) rel.

(** The path [rel], written with [/] and starting with one, below the
    directory [base], in the spelling of the platform. *)
Definition under (w : World) (base rel : list N) : list N :=
  base ++ (if bool_decide (platform w = lit "win32") then backslashed rel else rel).

(** The search order as it is documented, with every path spelled out:
    first the script of the local dependency, to be run by the current
    runtime (by the plain name [node] should the runtime not tell its
    path); then the binary under [node_modules/.bin], to be run directly,
    under the names of the platform.  Each entry pairs the path that is
    looked for with what resolution answers when it is there. *)
Definition documented_order (w : World) : list (list N * entrypoint) :=
  let runtime := if truthy (execPath w) then execPath w else lit "node" in
  let by_runtime p := (p, {| command := runtime; args := [p] |}) in
  let direct p := (p, {| command := p; args := [] |}) in
  if bool_decide (platform w = lit "win32") then
    [ by_runtime (under w (cwd w) (lit "/node_modules/@openai/codex/bin/codex.js"));
      direct (under w (cwd w) (lit "/node_modules/.bin/codex.cmd"));
      direct (under w (cwd w) (lit "/node_modules/.bin/codex.exe"));
      direct (under w (cwd w) (lit "/node_modules/.bin/codex")) ]
  else
    [ by_runtime (under w (cwd w) (lit "/node_modules/@openai/codex/bin/codex.js"));
      direct (under w (cwd w) (lit "/node_modules/.bin/codex")) ].

(** What the documented search answers: the first entry whose path is there. *)
Definition documented_entrypoint (w : World) (fs : gmap (list N) node) : option entrypoint :=
  snd <$> List.find (fun c => lookup_exists fs (fst c)) (documented_order w).

Definition file_content (n : option node) : option (list N) :=
  match n with
  | Some (File c _) => Some c
  | _ => None
  end.

(** The world with one environment variable removed. *)
Definition unset (name : list N) (w : World) : World :=
  {| os_homedir := os_homedir w; env := delete name (env w); cwd := cwd w;
     platform := platform w; arch := arch w; version := version w;
     execPath := execPath w; pid := pid w; now := now w; umask := umask w;
     spawn := spawn w; io_fault := io_fault w; sys_error := sys_error w |}.

(** The mode of a file the script has just created and tried to restrict. *)
Definition created_mode (w : World) (p : list N) : N :=
  match io_fault w (CallChmod p) with
  | Some _ => N.ldiff o600 (umask w)
  | None => o600
  end.

(** ** Notions used in the proofs *)

(** [post m fs Q]: the run of [m] from [fs] ends in a result, files and a
    journal that satisfy [Q]. *)
Definition post {A} (m : M A) (fs : gmap (list N) node)
    (Q : ctl A -> gmap (list N) node -> list event -> Prop) : Prop :=
  Q (val (m fs)) (fs_of (m fs)) (evs (m fs)).

(** The events of the credential step when it sets out to create the file. *)
Definition auth_event (w : World) (h v : list N) (e : event) : Prop :=
  is_print e = true \/ e = EvExists (authPath w h) false
  \/ credential_write w h v e \/ e = EvStat (authPath w h).

(** The events of the configuration step when it sets out to copy the file. *)
Definition config_event (w : World) (h : list N) (e : event) : Prop :=
  is_print e = true \/ e = EvExists (repoConfigPath w) true
  \/ e = EvMkdir (codexDir w h) \/ e = EvReadFile (repoConfigPath w)
  \/ (exists c, e = EvWriteFile (destConfigPath w h) c o600)
  \/ e = EvChmod (destConfigPath w h) o600 \/ e = EvStat (destConfigPath w h).

(** Events that neither change a file nor start a sub-process. *)
Definition quiet_event (e : event) : Prop :=
  is_print e = true \/ exists p b, e = EvExists p b.

(** How the verification step ends, from the status of the sub-process. *)
Definition verdict (s : option Z) : ctl unit :=
  match s with
  | Some 0%Z => Ret tt
  | Some s => Exit s
  | None => Exit 1%Z
  end.

(** Events other than the start of a sub-process. *)
Definition no_spawn (e : event) : Prop :=
  match e with EvSpawn _ _ _ => False | _ => True end.

(** ** Notions used in the further properties *)

(** The number a string of octal digits denotes. *)
Definition octal_value (ds : list N) : N :=
  fold_left (fun a d => 8 * a + (d - 48)) ds 0.

(** The two decimal digits of a number below 100. *)
Definition two_digits (n : N) : list N := [48 + n / 10; 48 + n mod 10].

(** The four decimal digits of a number below 10000. *)
Definition four_digits (n : N) : list N :=
  [48 + n / 1000; 48 + (n / 100) mod 10; 48 + (n / 10) mod 10; 48 + n mod 10].

(** What [modeStr] promises of the digits it prints for the bits [k]. *)
Definition octal_ok (k : N) : bool :=
  let ds := to_octal k in
  (1 <=? length ds)%nat && (length ds <=? 4)%nat
  && forallb (fun d => (48 <=? d) && (d <=? 55)) ds
  && (octal_value ds =? k).

(** [always P m]: every event of every run of [m] satisfies [P]. *)
Definition always {A} (P : event -> Prop) (m : M A) : Prop :=
  forall fs, Forall P (evs (m fs)).

(** The text of a print call starts with the prefix of the run and the
    tag of its kind; what follows may hold further lines. *)
Definition well_tagged (w : World) (e : event) : Prop :=
  match e with
  | EvConsole LInfo line => exists msg, line = PREFIX w ++ lit " " ++ msg
  | EvConsole LWarn line => exists msg, line = PREFIX w ++ lit " WARN: " ++ msg
  | EvConsole LError line => exists msg, line = PREFIX w ++ lit " ERROR: " ++ msg
  | EvOutput Stdout text => exists out, text = PREFIX w ++ lit " stdout: " ++ out
  | EvOutput Stderr text => exists out, text = PREFIX w ++ lit " stderr: " ++ out
  | _ => True
  end.

(** How the journal of a computation ends: with an error line before an
    exit, with [closing] when it returns. *)
Definition ends_logged {A} (closing : option event) (r : res A) : Prop :=
  match val r with
  | Exit _ => exists line, last (evs r) = Some (EvConsole LError line)
  | Ret _ => match closing with
             | Some e => last (evs r) = Some e
             | None => True
             end
  | Throw _ => False
  end.

(** The configuration copy can go through: the directory can be made, the
    repository file read and the destination written. *)
Definition config_can_copy (w : World) (h : list N) (fs : gmap (list N) node) : Prop :=
  io_fault w (CallMkdir (codexDir w h)) = None
  /\ (forall c m, fs !! codexDir w h <> Some (File c m))
  /\ io_fault w (CallReadFile (repoConfigPath w)) = None
  /\ (exists c m, fs !! repoConfigPath w = Some (File c m))
  /\ io_fault w (CallWriteFile (destConfigPath w h)) = None
  /\ (forall m, fs !! destConfigPath w h <> Some (Dir m)).

(** The credential file can be created: the directory can be made and the
    file written. *)
Definition credential_can_write (w : World) (h : list N) (fs : gmap (list N) node) : Prop :=
  io_fault w (CallMkdir (codexDir w h)) = None
  /\ (forall c m, fs !! codexDir w h <> Some (File c m))
  /\ io_fault w (CallWriteFile (authPath w h)) = None.

(** The mode of the destination after a copy: 0600 when the closing
    [chmod] succeeds; otherwise the mode it had, or 0600 less the mask for
    a file just created. *)
Definition copied_mode (w : World) (h : list N) (fs : gmap (list N) node) : N :=
  match io_fault w (CallChmod (destConfigPath w h)) with
  | None => o600
  | Some _ => match fs !! destConfigPath w h with
              | Some (File _ m) => m
              | _ => N.ldiff o600 (umask w)
              end
  end.

(** The world with other failures of system calls. *)
Definition with_faults (f : fs_call -> option js_error) (w : World) : World :=
  {| os_homedir := os_homedir w; env := env w; cwd := cwd w;
     platform := platform w; arch := arch w; version := version w;
     execPath := execPath w; pid := pid w; now := now w; umask := umask w;
     spawn := spawn w; io_fault := f; sys_error := sys_error w |}.

(** The credential variable is set and no directory can be made. *)
Definition w_no_mkdir : World :=
  with_faults (fun c => match c with
                        | CallMkdir _ => Some (sample_sys_error EEXIST c)
                        | _ => None
                        end) w_secret.



(** What makes a run return: a home directory, a credential step that has
    nothing to create or can create its file, a configuration copy that
    can go through, an entrypoint, and a version query ending with 0. *)
Definition run_can_succeed (w : World) (fs : gmap (list N) node) : Prop :=
  exists h entry,
    home_of w = Some h /\ h <> []
    /\ (credential_skips w fs \/ credential_can_write w h fs)
    /\ config_can_copy w h fs
    /\ expected_entrypoint w fs = Some entry
    /\ sp_status (spawn w (command entry) (args entry ++ [lit "--version"])) = Some 0%Z.

(** * Properties *)

#[local] Arguments N.ldiff : simpl never.
#[local] Arguments N.land : simpl never.
#[local] Arguments N.of_nat : simpl never.
#[local] Arguments lit : simpl never.
#[local] Arguments utf8 : simpl never.
#[local] Arguments dec : simpl never.
#[local] Arguments PREFIX : simpl never.
#[local] Set Warnings "-clear-no-such-hyp".

(** ** Sequencing *)

Section Sequencing.
Context {A B : Type}.
Variables (m : M A) (k : A -> M B) (fs : gmap (list N) node).

Lemma bind_val :
  val (bind m k fs) =
  match val (m fs) with
  | Ret a => val (k a (fs_of (m fs)))
  | Exit c => Exit c
  | Throw e => Throw e
  end.
Proof. unfold bind. destruct (val (m fs)); reflexivity. Qed.

Lemma bind_fs :
  fs_of (bind m k fs) =
  match val (m fs) with
  | Ret a => fs_of (k a (fs_of (m fs)))
  | _ => fs_of (m fs)
  end.
Proof. unfold bind. destruct (val (m fs)); reflexivity. Qed.

Lemma bind_evs :
  evs (bind m k fs) =
  evs (m fs) ++ match val (m fs) with
                | Ret a => evs (k a (fs_of (m fs)))
                | _ => []
                end.
Proof.
  unfold bind. destruct (val (m fs)); simpl; auto using app_nil_r.
Qed.
End Sequencing.

Lemma try_val {A} (m : M A) h fs :
  val (try_catch m h fs) =
  match val (m fs) with
  | Throw e => val (h e (fs_of (m fs)))
  | v => v
  end.
Proof. unfold try_catch. destruct (val (m fs)) eqn:E; simpl; auto. Qed.

Lemma try_fs {A} (m : M A) h fs :
  fs_of (try_catch m h fs) =
  match val (m fs) with
  | Throw e => fs_of (h e (fs_of (m fs)))
  | _ => fs_of (m fs)
  end.
Proof. unfold try_catch. destruct (val (m fs)); reflexivity. Qed.

Lemma try_evs {A} (m : M A) h fs :
  evs (try_catch m h fs) =
  evs (m fs) ++ match val (m fs) with
                | Throw e => evs (h e (fs_of (m fs)))
                | _ => []
                end.
Proof. unfold try_catch. destruct (val (m fs)); simpl; auto using app_nil_r. Qed.

(** ** System calls *)

Ltac run_call :=
  unfold mkdirSync, readFileSync, writeFileSync, chmodSync, statSync,
    may_fail, bind, emit, get_fs, put_fs, throw, ret; simpl.

(** ** Postconditions *)

Section Rules.
Context {A : Type}.
Variable fs : gmap (list N) node.
Variable Q : ctl A -> gmap (list N) node -> list event -> Prop.

Lemma post_ret (a : A) : Q (Ret a) fs [] -> post (ret a) fs Q.
Proof. exact id. Qed.

Lemma post_exit c : Q (Exit c) fs [] -> post (process_exit c) fs Q.
Proof. exact id. Qed.

Lemma post_bind {B} (m : M B) (k : B -> M A) :
  post m fs (fun v fs1 e1 =>
    match v with
    | Ret b => post (k b) fs1 (fun v' fs2 e2 => Q v' fs2 (e1 ++ e2))
    | Exit c => Q (Exit c) fs1 e1
    | Throw e => Q (Throw e) fs1 e1
    end) ->
  post (bind m k) fs Q.
Proof.
  unfold post. rewrite bind_val, bind_fs, bind_evs.
  destruct (val (m fs)); rewrite ?app_nil_r; auto.
Qed.

Lemma post_try (m : M A) (h : js_error -> M A) :
  post m fs (fun v fs1 e1 =>
    match v with
    | Throw e => post (h e) fs1 (fun v' fs2 e2 => Q v' fs2 (e1 ++ e2))
    | Ret a => Q (Ret a) fs1 e1
    | Exit c => Q (Exit c) fs1 e1
    end) ->
  post (try_catch m h) fs Q.
Proof.
  unfold post. rewrite try_val, try_fs, try_evs.
  destruct (val (m fs)); rewrite ?app_nil_r; auto.
Qed.
End Rules.

Section UnitRules.
Variable w : World.
Variable fs : gmap (list N) node.

Lemma post_emit Q e : Q (Ret tt) fs [e] -> post (emit e) fs Q.
Proof. exact id. Qed.

(** The text of a log line is left open. *)
Lemma post_info Q msg :
  (forall line, Q (Ret tt) fs [EvConsole LInfo line]) -> post (info w msg) fs Q.
Proof. intros H. apply H. Qed.

Lemma post_warn Q msg :
  (forall line, Q (Ret tt) fs [EvConsole LWarn line]) -> post (warn w msg) fs Q.
Proof. intros H. apply H. Qed.

Lemma post_error Q msg :
  (forall line, Q (Ret tt) fs [EvConsole LError line]) -> post (error w msg) fs Q.
Proof. intros H. apply H. Qed.

Lemma post_exists Q p :
  Q (Ret (lookup_exists fs p)) fs [EvExists p (lookup_exists fs p)] ->
  post (existsSync p) fs Q.
Proof. exact id. Qed.

Lemma post_mkdir Q p :
  (forall e, io_fault w (CallMkdir p) = Some e -> Q (Throw e) fs [EvMkdir p]) ->
  (forall c m, io_fault w (CallMkdir p) = None -> fs !! p = Some (File c m) ->
     Q (Throw (sys_error w EEXIST (CallMkdir p))) fs [EvMkdir p]) ->
  (forall m, io_fault w (CallMkdir p) = None -> fs !! p = Some (Dir m) ->
     Q (Ret tt) fs [EvMkdir p]) ->
  (io_fault w (CallMkdir p) = None -> fs !! p = None ->
     Q (Ret tt) (<[p := Dir (N.ldiff o777 (umask w))]> fs) [EvMkdir p]) ->
  post (mkdirSync w p) fs Q.
Proof.
  unfold post. run_call. intros H1 H2 H3 H4.
  destruct (io_fault w (CallMkdir p)); simpl; [eauto|].
  destruct (fs !! p) as [[]|]; simpl; eauto.
Qed.

Lemma post_read Q p :
  (forall e, Q (Throw e) fs [EvReadFile p]) ->
  (forall c m, fs !! p = Some (File c m) -> Q (Ret c) fs [EvReadFile p]) ->
  post (readFileSync w p) fs Q.
Proof.
  unfold post. run_call. intros H1 H2.
  destruct (io_fault w (CallReadFile p)); simpl; [eauto|].
  destruct (fs !! p) as [[]|]; simpl; eauto.
Qed.

Lemma post_write Q p data mode :
  (forall e, io_fault w (CallWriteFile p) = Some e ->
     Q (Throw e) fs [EvWriteFile p data mode]) ->
  (forall m, io_fault w (CallWriteFile p) = None -> fs !! p = Some (Dir m) ->
     Q (Throw (sys_error w EISDIR (CallWriteFile p))) fs [EvWriteFile p data mode]) ->
  (forall c m, io_fault w (CallWriteFile p) = None -> fs !! p = Some (File c m) ->
     Q (Ret tt) (<[p := File data m]> fs) [EvWriteFile p data mode]) ->
  (io_fault w (CallWriteFile p) = None -> fs !! p = None ->
     Q (Ret tt) (<[p := File data (N.ldiff mode (umask w))]> fs)
       [EvWriteFile p data mode]) ->
  post (writeFileSync w p data mode) fs Q.
Proof.
  unfold post. run_call. intros H1 H2 H3 H4.
  destruct (io_fault w (CallWriteFile p)); simpl; [eauto|].
  destruct (fs !! p) as [[]|]; simpl; eauto.
Qed.

(** [try { fs.chmodSync(p, mode) } catch (_) {}] *)
Lemma post_chmod_quiet Q p mode :
  (io_fault w (CallChmod p) <> None \/ fs !! p = None -> Q (Ret tt) fs [EvChmod p mode]) ->
  (forall c m, io_fault w (CallChmod p) = None -> fs !! p = Some (File c m) ->
     Q (Ret tt) (<[p := File c mode]> fs) [EvChmod p mode]) ->
  (forall m, io_fault w (CallChmod p) = None -> fs !! p = Some (Dir m) ->
     Q (Ret tt) (<[p := Dir mode]> fs) [EvChmod p mode]) ->
  post (try_catch (chmodSync w p mode) (fun _ => ret tt)) fs Q.
Proof.
  unfold post, try_catch. run_call. intros H1 H2 H3.
  destruct (io_fault w (CallChmod p)); simpl; [apply H1; left; congruence|].
  destruct (fs !! p) as [[]|]; simpl; eauto.
Qed.

Lemma post_statSafe Q p :
  (forall st, Q (Ret st) fs [EvStat p]) -> post (statSafe w p) fs Q.
Proof.
  unfold post, statSafe, try_catch. run_call. intros H.
  destruct (io_fault w (CallStat p)); simpl; [eauto|].
  destruct (fs !! p) as [[]|]; simpl; eauto.
Qed.

(** [runCapture] returns, whatever became of the sub-process. *)
Lemma post_runCapture Q cmd args :
  (forall out ev,
     out_ok out = bool_decide (sp_status (spawn w cmd args) = Some 0%Z) ->
     out_status out = sp_status (spawn w cmd args) ->
     Forall (fun e => is_print e = true) ev ->
     Q (Ret out) fs (EvSpawn cmd args (spawn w cmd args) :: ev)) ->
  post (runCapture w cmd args) fs Q.
Proof.
  intros H. unfold runCapture.
  apply post_bind, post_emit. cbv beta iota.
  apply post_bind, post_info. intros l1. cbv beta iota.
  apply post_bind. unfold when.
  destruct (truthy _);
    (apply post_emit || apply post_ret); cbv beta iota;
    (apply post_bind);
    (destruct (truthy _);
      (apply post_emit || apply post_ret); cbv beta iota;
      (apply post_bind);
      (destruct (out_error _) eqn:E;
        [apply post_error; intros l2|apply post_ret]; cbv beta iota;
        apply post_ret; simpl; apply H; auto;
        repeat constructor)).
Qed.
End UnitRules.

(** ** Paths *)

Lemma sep_cases w : sep w = lit "/" \/ sep w = [0x5C].
Proof. unfold sep. case_bool_decide; auto. Qed.

Ltac unfold_paths :=
  unfold authPath, destConfigPath, codexDir, repoConfigPath, codexJs, binDir,
    path_join in *; simpl fold_left in *.

(** Two paths with different last characters differ. *)
Ltac last_differs :=
  let H := fresh in
  intro H; apply (f_equal (@last N)) in H; unfold_paths;
  rewrite !last_app in H; cbv in H; discriminate H.

Lemma authPath_codexDir w h : authPath w h <> codexDir w h.
Proof. last_differs. Qed.
Lemma authPath_dest w h : authPath w h <> destConfigPath w h.
Proof. last_differs. Qed.
Lemma authPath_repo w h : authPath w h <> repoConfigPath w.
Proof. last_differs. Qed.
Lemma repo_codexDir w h : repoConfigPath w <> codexDir w h.
Proof. last_differs. Qed.
Lemma codexJs_codexDir w h : codexJs w <> codexDir w h.
Proof. last_differs. Qed.
Lemma codexJs_authPath w h : codexJs w <> authPath w h.
Proof. last_differs. Qed.
Lemma codexJs_dest w h : codexJs w <> destConfigPath w h.
Proof. last_differs. Qed.
Lemma dest_codexDir w h : destConfigPath w h <> codexDir w h.
Proof. last_differs. Qed.

Lemma candidates_cases w name :
  In name (candidates w) ->
  name = lit "codex.cmd" \/ name = lit "codex.exe" \/ name = lit "codex".
Proof. unfold candidates. case_bool_decide; simpl; intuition. Qed.

Lemma candidate_authPath w h name :
  In name (candidates w) -> path_join w (binDir w) [name] <> authPath w h.
Proof. intros [->|[->| ->]]%candidates_cases; last_differs. Qed.

Lemma candidate_dest w h name :
  In name (candidates w) -> path_join w (binDir w) [name] <> destConfigPath w h.
Proof. intros [->|[->| ->]]%candidates_cases; last_differs. Qed.

Lemma candidate_codexDir w h name :
  In name (candidates w) -> path_join w (binDir w) [name] <> codexDir w h.
Proof.
  intros [->|[->| ->]]%candidates_cases; try last_differs.
  unfold_paths. intros H.
  rewrite (app_assoc h) in H.
  apply app_inj_2 in H as [_ H].
  - destruct (sep_cases w) as [E|E]; rewrite E in H; discriminate H.
  - destruct (sep_cases w) as [E|E]; rewrite E; reflexivity.
Qed.

(** The paths of the script, spelled out. *)
Ltac spell :=
  unfold_paths; unfold under, sep; case_bool_decide;
  rewrite <- ?app_assoc; reflexivity.

Lemma codexJs_spelled w :
  codexJs w = under w (cwd w) (lit "/node_modules/@openai/codex/bin/codex.js").
Proof. spell. Qed.
Lemma bin_cmd_spelled w :
  path_join w (binDir w) [lit "codex.cmd"] = under w (cwd w) (lit "/node_modules/.bin/codex.cmd").
Proof. spell. Qed.
Lemma bin_exe_spelled w :
  path_join w (binDir w) [lit "codex.exe"] = under w (cwd w) (lit "/node_modules/.bin/codex.exe").
Proof. spell. Qed.
Lemma bin_codex_spelled w :
  path_join w (binDir w) [lit "codex"] = under w (cwd w) (lit "/node_modules/.bin/codex").
Proof. spell. Qed.

Ltac wp1 :=
  cbv beta iota zeta;
  lazymatch goal with
  | |- post (bind _ _) _ _ => apply post_bind
  | |- post (try_catch (chmodSync _ _ _) _) _ _ => apply post_chmod_quiet; intros
  | |- post (try_catch _ _) _ _ => apply post_try
  | |- post (ret _) _ _ => apply post_ret
  | |- post (process_exit _) _ _ => apply post_exit
  | |- post (info _ _) _ _ => apply post_info; intros ?
  | |- post (warn _ _) _ _ => apply post_warn; intros ?
  | |- post (error _ _) _ _ => apply post_error; intros ?
  | |- post (existsSync _) _ _ => apply post_exists
  | |- post (mkdirSync _ _) _ _ => apply post_mkdir; intros
  | |- post (readFileSync _ _) _ _ => apply post_read; intros
  | |- post (writeFileSync _ _ _ _) _ _ => apply post_write; intros
  | |- post (statSafe _ _) _ _ => apply post_statSafe; intros ?
  | |- post (when ?b _) _ _ => unfold when at 1; destruct b eqn:?
  | |- post (if ?b then _ else _) _ _ => destruct b eqn:?
  end.
Ltac wp := repeat wp1; cbv beta iota zeta.

(** The same, keeping the text of the log lines. *)
Ltac wpx1 :=
  cbv beta iota zeta;
  lazymatch goal with
  | |- post (info _ _) _ _ => unfold info at 1; apply post_emit
  | |- post (warn _ _) _ _ => unfold warn at 1; apply post_emit
  | |- post (error _ _) _ _ => unfold error at 1; apply post_emit
  | _ => wp1
  end.
Ltac wpx := repeat wpx1; cbv beta iota zeta.

Create HintDb paths.
#[local] Hint Resolve authPath_codexDir authPath_dest authPath_repo repo_codexDir
  codexJs_codexDir codexJs_authPath codexJs_dest dest_codexDir
  candidate_authPath candidate_dest candidate_codexDir : paths.

Ltac path_ne :=
  solve [ auto with paths | apply not_eq_sym; auto with paths | congruence ].

Ltac norm_lookups :=
  repeat match goal with
  | H : context [<[?p := _]> _ !! ?p] |- _ => rewrite lookup_insert_eq in H
  | |- context [<[?p := _]> _ !! ?p] => rewrite lookup_insert_eq
  | H : context [<[?p := _]> _ !! ?q] |- _ => rewrite (lookup_insert_ne _ p q) in H by path_ne
  | |- context [<[?p := _]> _ !! ?q] => rewrite (lookup_insert_ne _ p q) by path_ne
  end.

Ltac all_events :=
  repeat match goal with
  | |- Forall _ (_ :: _) => constructor
  | |- Forall _ [] => constructor
  end.

Lemma lookup_exists_false fs p : lookup_exists fs p = false <-> fs !! p = None.
Proof. unfold lookup_exists. destruct (fs !! p); split; congruence. Qed.

Lemma lookup_exists_true fs p : lookup_exists fs p = true <-> is_Some (fs !! p).
Proof.
  unfold lookup_exists. destruct (fs !! p); split; try congruence; eauto.
  intros [? ?]; congruence.
Qed.

(** ** The home directory *)

Lemma home_resolved w h :
  home_of w = Some h -> h <> [] ->
  falsy (home_of w) = false /\ default [] (home_of w) = h.
Proof. intros -> Hh. destruct h; [congruence|]. auto. Qed.

Lemma falsy_false v : falsy v = false -> exists h, v = Some h /\ h <> [].
Proof. destruct v as [[|c h]|]; simpl; try discriminate; eauto. Qed.

(** ** The credential step *)

Lemma auth_write w h fs :
  home_of w = Some h -> h <> [] ->
  lookup_exists fs (authPath w h) = false ->
  secret_missing (env w !! lit "CODEX_AUTH_JSON") = false ->
  let v := default [] (env w !! lit "CODEX_AUTH_JSON") in
  let r := ensureAuthFromEnvIfMissing w fs in
  (val r = Ret tt \/ val r = Exit 1%Z) /\
  (forall p, p <> codexDir w h -> p <> authPath w h -> fs_of r !! p = fs !! p) /\
  Forall (auth_event w h v) (evs r) /\
  (io_fault w (CallMkdir (codexDir w h)) = None ->
   io_fault w (CallWriteFile (authPath w h)) = None ->
   (forall c m, fs !! codexDir w h <> Some (File c m)) ->
   val r = Ret tt /\
   fs_of r !! authPath w h = Some (File (utf8 v) (created_mode w (authPath w h))) /\
   exists m, fs_of r !! codexDir w h = Some (Dir m)).
Proof.
  intros Hh Hne Hex Hs v r. destruct (home_resolved w h Hh Hne) as [Hf Hd].
  subst r.
  change (post (ensureAuthFromEnvIfMissing w) fs (fun x f e =>
    (x = Ret tt \/ x = Exit 1%Z) /\
    (forall p, p <> codexDir w h -> p <> authPath w h -> f !! p = fs !! p) /\
    Forall (auth_event w h v) e /\
    (io_fault w (CallMkdir (codexDir w h)) = None ->
     io_fault w (CallWriteFile (authPath w h)) = None ->
     (forall c m, fs !! codexDir w h <> Some (File c m)) ->
     x = Ret tt /\
     f !! authPath w h = Some (File (utf8 v) (created_mode w (authPath w h))) /\
     exists m, f !! codexDir w h = Some (Dir m)))).
  unfold ensureAuthFromEnvIfMissing. rewrite Hf, Hd. cbv beta iota zeta.
  apply post_bind, post_exists. rewrite Hex. cbv beta iota.
  apply post_bind, post_info. intros l0. cbv beta iota. rewrite Hs. fold v.
  apply lookup_exists_false in Hex.
  wp.
  all: simpl app; norm_lookups; simplify_eq.
  all: split_and!; auto; try (intros; norm_lookups; auto; fail).
  all: try (all_events; unfold auth_event, credential_write; simpl; auto 10; fail).
  all: try (intros; exfalso; congruence).
  all: try (intros; exfalso; naive_solver).
  all: intros _ _ _; unfold created_mode; split_and!; eauto.
  all: destruct (io_fault w (CallChmod _)) eqn:?; naive_solver.
Qed.

Lemma auth_nohome w fs :
  falsy (home_of w) = true ->
  let r := ensureAuthFromEnvIfMissing w fs in
  val r = Ret tt /\ fs_of r = fs /\
  evs r = [EvConsole LWarn (PREFIX w ++ lit " WARN: "
             ++ lit "Could not resolve home directory; skip ~/.codex/auth.json bootstrap")].
Proof. unfold ensureAuthFromEnvIfMissing. intros ->. auto. Qed.

Lemma auth_exists w h fs :
  home_of w = Some h -> h <> [] ->
  lookup_exists fs (authPath w h) = true ->
  let r := ensureAuthFromEnvIfMissing w fs in
  val r = Ret tt /\ fs_of r = fs /\
  evs r = [EvExists (authPath w h) true;
           EvConsole LInfo (PREFIX w ++ lit " " ++ lit "auth path: " ++ authPath w h
                            ++ lit " exists=" ++ bool_str true)].
Proof.
  intros Hh Hne Hex r. destruct (home_resolved w h Hh Hne) as [Hf Hd]. subst r.
  change (post (ensureAuthFromEnvIfMissing w) fs (fun x f e =>
    x = Ret tt /\ f = fs /\
    e = [EvExists (authPath w h) true;
         EvConsole LInfo (PREFIX w ++ lit " " ++ lit "auth path: " ++ authPath w h
                          ++ lit " exists=" ++ bool_str true)])).
  unfold ensureAuthFromEnvIfMissing. rewrite Hf, Hd. cbv beta iota zeta.
  apply post_bind, post_exists. rewrite Hex. wpx. auto.
Qed.

Lemma auth_nosecret w h fs :
  home_of w = Some h -> h <> [] ->
  lookup_exists fs (authPath w h) = false ->
  secret_missing (env w !! lit "CODEX_AUTH_JSON") = true ->
  let r := ensureAuthFromEnvIfMissing w fs in
  val r = Ret tt /\ fs_of r = fs /\
  evs r = [EvExists (authPath w h) false;
           EvConsole LInfo (PREFIX w ++ lit " " ++ lit "auth path: " ++ authPath w h
                            ++ lit " exists=" ++ bool_str false);
           EvConsole LInfo (PREFIX w ++ lit " "
                            ++ lit "CODEX_AUTH_JSON not set; skipping auth.json creation")].
Proof.
  intros Hh Hne Hex Hs r. destruct (home_resolved w h Hh Hne) as [Hf Hd]. subst r.
  change (post (ensureAuthFromEnvIfMissing w) fs (fun x f e =>
    x = Ret tt /\ f = fs /\
    e = [EvExists (authPath w h) false;
         EvConsole LInfo (PREFIX w ++ lit " " ++ lit "auth path: " ++ authPath w h
                          ++ lit " exists=" ++ bool_str false);
         EvConsole LInfo (PREFIX w ++ lit " "
                          ++ lit "CODEX_AUTH_JSON not set; skipping auth.json creation")])).
  unfold ensureAuthFromEnvIfMissing. rewrite Hf, Hd. cbv beta iota zeta.
  apply post_bind, post_exists. rewrite Hex. cbv beta iota.
  apply post_bind. wpx1. cbv beta iota. rewrite Hs. wpx. auto.
Qed.

(** What the credential step does when it has nothing to create. *)
Lemma auth_skips w fs :
  credential_skips w fs ->
  let r := ensureAuthFromEnvIfMissing w fs in
  val r = Ret tt /\ fs_of r = fs /\
  Forall (fun e => is_print e = true \/ exists p b, e = EvExists p b) (evs r).
Proof.
  intros Hskip r. subst r.
  destruct (falsy (home_of w)) eqn:Hf.
  { destruct (auth_nohome w fs Hf) as (-> & -> & ->). split_and!; auto; all_events; eauto. }
  destruct (falsy_false _ Hf) as (h & Hh & Hne).
  destruct (home_resolved w h Hh Hne) as [_ Hd].
  destruct (lookup_exists fs (authPath w h)) eqn:Hex.
  { destruct (auth_exists w h fs Hh Hne Hex) as (-> & -> & ->). split_and!; auto;
    all_events; eauto. }
  destruct (secret_missing (env w !! lit "CODEX_AUTH_JSON")) eqn:Hs.
  { destruct (auth_nosecret w h fs Hh Hne Hex Hs) as (-> & -> & ->). split_and!; auto;
    all_events; eauto. }
  exfalso. destruct Hskip as [H|[H|H]]; rewrite ?Hd in H; congruence.
Qed.

(** The credential step in general: it returns or exits with 1, touches
    only its directory and its file, and spawns nothing. *)
Lemma auth_general w fs :
  let r := ensureAuthFromEnvIfMissing w fs in
  (val r = Ret tt \/ val r = Exit 1%Z) /\
  (forall p, (forall h, home_of w = Some h -> p <> codexDir w h /\ p <> authPath w h) ->
             fs_of r !! p = fs !! p) /\
  Forall (fun e =>
    is_print e = true \/ (exists p b, e = EvExists p b) \/
    (exists h, home_of w = Some h /\ h <> [] /\ ~ credential_skips w fs /\
       (credential_write w h (default [] (env w !! lit "CODEX_AUTH_JSON")) e
        \/ e = EvStat (authPath w h)))) (evs r).
Proof.
  intros r. subst r.
  destruct (falsy (home_of w)) eqn:Hf.
  { destruct (auth_skips w fs) as (-> & -> & Hev); [left; auto|].
    split_and!; auto. eapply Forall_impl; [exact Hev|]. simpl. tauto. }
  destruct (falsy_false _ Hf) as (h & Hh & Hne).
  destruct (home_resolved w h Hh Hne) as [_ Hd].
  destruct (lookup_exists fs (authPath w h)) eqn:Hex.
  { destruct (auth_skips w fs) as (-> & -> & Hev); [right; left; congruence|].
    split_and!; auto. eapply Forall_impl; [exact Hev|]. simpl. tauto. }
  destruct (secret_missing (env w !! lit "CODEX_AUTH_JSON")) eqn:Hs.
  { destruct (auth_skips w fs) as (-> & -> & Hev); [right; right; congruence|].
    split_and!; auto. eapply Forall_impl; [exact Hev|]. simpl. tauto. }
  destruct (auth_write w h fs Hh Hne Hex Hs) as (Hv & Hfr & Hev & _).
  split_and!; auto.
  - intros p Hp. destruct (Hp h Hh). auto.
  - eapply Forall_impl; [exact Hev|]. simpl. intros e [H|[H|[H|H]]]; eauto.
    + right. right. exists h. split_and!; auto.
      intros [H'|[H'|H']]; rewrite ?Hd in H'; congruence.
    + right. right. exists h. split_and!; auto.
      intros [H'|[H'|H']]; rewrite ?Hd in H'; congruence.
Qed.

(** ** The configuration step *)

Lemma config_absent w fs :
  lookup_exists fs (repoConfigPath w) = false ->
  let r := ensureConfigTomlFromRepo w fs in
  val r = Exit 2%Z /\ fs_of r = fs /\
  evs r = [EvConsole LInfo (PREFIX w ++ lit " " ++ lit "repo config candidate: "
                            ++ repoConfigPath w);
           EvExists (repoConfigPath w) false;
           EvConsole LError (PREFIX w ++ lit " ERROR: "
             ++ lit "::error::.codex/config.toml not found in repo; aborting per fail-fast policy")].
Proof.
  intros Hex r. subst r.
  change (post (ensureConfigTomlFromRepo w) fs (fun x f e =>
    x = Exit 2%Z /\ f = fs /\
    e = [EvConsole LInfo (PREFIX w ++ lit " " ++ lit "repo config candidate: "
                          ++ repoConfigPath w);
         EvExists (repoConfigPath w) false;
         EvConsole LError (PREFIX w ++ lit " ERROR: "
           ++ lit "::error::.codex/config.toml not found in repo; aborting per fail-fast policy")])).
  unfold ensureConfigTomlFromRepo. cbv beta iota zeta.
  apply post_bind. wpx1. cbv beta iota. apply post_bind, post_exists. rewrite Hex.
  cbv beta iota. apply post_bind. unfold when. simpl negb. wpx. auto.
Qed.

Lemma config_nohome w fs :
  lookup_exists fs (repoConfigPath w) = true ->
  falsy (home_of w) = true ->
  let r := ensureConfigTomlFromRepo w fs in
  val r = Exit 1%Z /\ fs_of r = fs /\
  evs r = [EvConsole LInfo (PREFIX w ++ lit " " ++ lit "repo config candidate: "
                            ++ repoConfigPath w);
           EvExists (repoConfigPath w) true;
           EvConsole LError (PREFIX w ++ lit " ERROR: "
             ++ lit "HOME not set; cannot locate ~/.codex for config.toml")].
Proof.
  intros Hex Hf r. subst r.
  change (post (ensureConfigTomlFromRepo w) fs (fun x f e =>
    x = Exit 1%Z /\ f = fs /\
    e = [EvConsole LInfo (PREFIX w ++ lit " " ++ lit "repo config candidate: "
                          ++ repoConfigPath w);
         EvExists (repoConfigPath w) true;
         EvConsole LError (PREFIX w ++ lit " ERROR: "
           ++ lit "HOME not set; cannot locate ~/.codex for config.toml")])).
  unfold ensureConfigTomlFromRepo. cbv beta iota zeta.
  apply post_bind. wpx1. cbv beta iota. apply post_bind, post_exists. rewrite Hex.
  cbv beta iota. apply post_bind. unfold when at 1. simpl negb. wpx1.
  cbv beta iota. apply post_bind. rewrite Hf. unfold when at 1. wpx. auto.
Qed.

Lemma config_run w h fs :
  lookup_exists fs (repoConfigPath w) = true ->
  home_of w = Some h -> h <> [] ->
  let r := ensureConfigTomlFromRepo w fs in
  (val r = Ret tt \/ val r = Exit 1%Z) /\
  (forall p, p <> codexDir w h -> p <> destConfigPath w h -> fs_of r !! p = fs !! p) /\
  Forall (config_event w h) (evs r) /\
  (val r = Ret tt -> exists c m m',
     fs !! repoConfigPath w = Some (File c m) /\
     fs_of r !! destConfigPath w h = Some (File c m')) /\
  (forall m, fs !! codexDir w h = Some (Dir m) -> fs_of r !! codexDir w h = Some (Dir m)).
Proof.
  intros Hex Hh Hne r. destruct (home_resolved w h Hh Hne) as [Hf Hd]. subst r.
  change (post (ensureConfigTomlFromRepo w) fs (fun x f e =>
    (x = Ret tt \/ x = Exit 1%Z) /\
    (forall p, p <> codexDir w h -> p <> destConfigPath w h -> f !! p = fs !! p) /\
    Forall (config_event w h) e /\
    (x = Ret tt -> exists c m m',
       fs !! repoConfigPath w = Some (File c m) /\
       f !! destConfigPath w h = Some (File c m')) /\
    (forall m, fs !! codexDir w h = Some (Dir m) -> f !! codexDir w h = Some (Dir m)))).
  unfold ensureConfigTomlFromRepo. cbv beta iota zeta.
  apply post_bind, post_info. intros l0. cbv beta iota.
  apply post_bind, post_exists. rewrite Hex. cbv beta iota.
  apply post_bind. unfold when at 1. simpl negb. apply post_ret. cbv beta iota.
  apply post_bind. rewrite Hf. unfold when at 1. apply post_ret. cbv beta iota.
  rewrite Hd.
  wp.
  all: simpl app; norm_lookups; simplify_eq.
  all: split_and!; auto; try (intros; norm_lookups; auto; fail).
  all: try (all_events; unfold config_event; simpl; eauto 10; fail).
  all: try (intros; exfalso; congruence).
  all: try (intros _; norm_lookups; eauto; fail).
  all: intros; norm_lookups; congruence.
Qed.

(** The configuration step in general. *)
Lemma config_general w fs :
  let r := ensureConfigTomlFromRepo w fs in
  (val r = Ret tt \/ val r = Exit 1%Z \/ val r = Exit 2%Z) /\
  (val r = Exit 2%Z <-> lookup_exists fs (repoConfigPath w) = false) /\
  (forall p, (forall h, home_of w = Some h -> p <> codexDir w h /\ p <> destConfigPath w h) ->
             fs_of r !! p = fs !! p) /\
  Forall (fun e =>
    is_print e = true \/ (exists p b, e = EvExists p b) \/
    (lookup_exists fs (repoConfigPath w) = true /\
     exists h, home_of w = Some h /\ h <> [] /\ config_event w h e)) (evs r) /\
  (val r = Ret tt -> exists h c m m',
     home_of w = Some h /\ h <> [] /\
     fs !! repoConfigPath w = Some (File c m) /\
     fs_of r !! destConfigPath w h = Some (File c m')) /\
  (forall h m, home_of w = Some h -> fs !! codexDir w h = Some (Dir m) ->
     fs_of r !! codexDir w h = Some (Dir m)).
Proof.
  intros r. subst r.
  destruct (lookup_exists fs (repoConfigPath w)) eqn:Hex.
  2:{ destruct (config_absent w fs Hex) as (-> & -> & ->).
      split_and!; auto; try (intros; congruence); try tauto.
      all_events; eauto. }
  destruct (falsy (home_of w)) eqn:Hf.
  { destruct (config_nohome w fs Hex Hf) as (-> & -> & ->).
    split_and!; auto; try (intros; congruence).
    - split; congruence.
    - all_events; eauto. }
  destruct (falsy_false _ Hf) as (h & Hh & Hne).
  destruct (config_run w h fs Hex Hh Hne) as (Hv & Hfr & Hev & Hok & Hdir).
  split_and!.
  - tauto.
  - split; [|congruence]. intros H. destruct Hv; congruence.
  - intros p Hp. destruct (Hp h Hh). auto.
  - eapply Forall_impl; [exact Hev|]. simpl. intros e He.
    right. right. split; auto. exists h. auto.
  - intros H. destruct (Hok H) as (c & m & m' & ? & ?). exists h, c, m, m'. auto.
  - intros h' m Hh'. assert (h' = h) as -> by congruence. apply Hdir.
Qed.

(** ** Resolution *)

Lemma first_candidate_spec w dir names fs :
  let r := first_candidate w dir names fs in
  val r = Ret (match List.find (fun name => lookup_exists fs (path_join w dir [name])) names with
               | Some name => Some {| command := path_join w dir [name]; args := [] |}
               | None => None
               end) /\
  fs_of r = fs /\ Forall quiet_event (evs r).
Proof.
  induction names as [|name rest IH]; intros r; subst r.
  { simpl. split_and!; auto. }
  change (post (first_candidate w dir (name :: rest)) fs (fun x f e =>
    x = Ret (match List.find (fun name => lookup_exists fs (path_join w dir [name]))
                     (name :: rest) with
             | Some name => Some {| command := path_join w dir [name]; args := [] |}
             | None => None
             end) /\ f = fs /\ Forall quiet_event e)).
  cbn [first_candidate List.find]. cbv beta iota zeta.
  apply post_bind, post_exists. cbv beta iota.
  destruct (lookup_exists fs (path_join w dir [name])) eqn:Hex.
  - wp. split_and!; auto. simpl app. all_events; unfold quiet_event; simpl; eauto.
  - unfold post. destruct IH as (-> & -> & He).
    set (e := evs (first_candidate w dir rest fs)) in *. clearbody e.
    split_and!; auto. simpl app. apply Forall_cons; split; auto.
    unfold quiet_event; eauto.
Qed.

Lemma find_spec w fs :
  let r := findLocalCodexEntrypoint w fs in
  val r = Ret (expected_entrypoint w fs) /\ fs_of r = fs /\ Forall quiet_event (evs r).
Proof.
  intros r. subst r.
  change (post (findLocalCodexEntrypoint w) fs (fun x f e =>
    x = Ret (expected_entrypoint w fs) /\ f = fs /\ Forall quiet_event e)).
  unfold findLocalCodexEntrypoint, expected_entrypoint. cbv beta iota zeta.
  apply post_bind, post_exists. cbv beta iota.
  destruct (lookup_exists fs (codexJs w)) eqn:Hex.
  - wp. split_and!; auto. simpl app. all_events; unfold quiet_event; simpl; eauto.
  - unfold post.
    destruct (first_candidate_spec w (binDir w) (candidates w) fs) as (-> & -> & He).
    set (e := evs (first_candidate w (binDir w) (candidates w) fs)) in *. clearbody e.
    split_and!; auto. simpl app. apply Forall_cons; split; auto.
    unfold quiet_event; eauto.
Qed.

(** ** Verification *)

Lemma verify_spec w entry fs :
  let sr := spawn w (command entry) (args entry ++ [lit "--version"]) in
  let r := verifyLocalCodex w entry fs in
  val r = verdict (sp_status sr) /\ fs_of r = fs /\
  exists ev, evs r = EvSpawn (command entry) (args entry ++ [lit "--version"]) sr :: ev
             /\ Forall (fun e => is_print e = true) ev.
Proof.
  intros sr r. subst r.
  change (post (verifyLocalCodex w entry) fs (fun x f e =>
    x = verdict (sp_status sr) /\ f = fs /\
    exists ev, e = EvSpawn (command entry) (args entry ++ [lit "--version"]) sr :: ev
               /\ Forall (fun e => is_print e = true) ev)).
  unfold verifyLocalCodex.
  apply post_bind, post_runCapture. intros out ev Hok Hst Hev. cbv beta iota.
  fold sr in Hok, Hst. rewrite Hok, Hst.
  apply post_bind. unfold when at 1.
  destruct (sp_status sr) as [[| |]|] eqn:E; simpl; wp; simpl app.
  all: split_and!; auto; eexists; split; [reflexivity|].
  all: rewrite ?Forall_app; split_and!; auto; all_events; auto.
Qed.

Lemma resolve_and_verify_spec w fs :
  let r := resolve_and_verify w fs in
  fs_of r = fs /\
  match expected_entrypoint w fs with
  | None => val r = Exit 1%Z /\ Forall quiet_event (evs r)
  | Some entry =>
      let sr := spawn w (command entry) (args entry ++ [lit "--version"]) in
      val r = verdict (sp_status sr) /\
      exists before after,
        evs r = before ++ EvSpawn (command entry) (args entry ++ [lit "--version"]) sr :: after
        /\ Forall quiet_event before /\ Forall quiet_event after
  end.
Proof.
  intros r. subst r.
  change (post (resolve_and_verify w) fs (fun x f e =>
    f = fs /\
    match expected_entrypoint w fs with
    | None => x = Exit 1%Z /\ Forall quiet_event e
    | Some entry =>
        let sr := spawn w (command entry) (args entry ++ [lit "--version"]) in
        x = verdict (sp_status sr) /\
        exists before after,
          e = before ++ EvSpawn (command entry) (args entry ++ [lit "--version"]) sr :: after
          /\ Forall quiet_event before /\ Forall quiet_event after
    end)).
  unfold resolve_and_verify.
  apply post_bind. unfold post at 1.
  destruct (find_spec w fs) as (-> & -> & He).
  set (e := evs (findLocalCodexEntrypoint w fs)) in *. clearbody e.
  destruct (expected_entrypoint w fs) as [entry|].
  - apply post_bind. unfold post at 1.
    destruct (verify_spec w entry fs) as (-> & -> & ev & -> & Hev).
    assert (Hq : Forall quiet_event ev).
    { eapply Forall_impl; [exact Hev|]. unfold quiet_event. auto. }
    unfold verdict.
    destruct (sp_status _) as [[| |]|]; wp; (split; [reflexivity|]);
      (split; [reflexivity|]); eexists; eexists; (split; [simpl app; try reflexivity|]).
    all: try (split; eauto; fail).
    split; auto. rewrite Forall_app. split; auto. all_events. left. reflexivity.
  - wp. split_and!; auto. rewrite Forall_app. split; auto.
    simpl app. all_events. left. reflexivity.
Qed.

(** ** The whole run *)

(** The environment probe always hands over to the remaining steps, in
    the files it found. *)
Lemma main_split w fs :
  let r := after_probe w fs in
  let probe := spawn w (which_cmd w) [lit "node"] in
  exists pe,
    Forall (probe_event w) pe /\
    In (EvSpawn (which_cmd w) [lit "node"] probe) pe /\
    In (EvConsole LInfo (PREFIX w ++ lit " " ++ lit "node resolved ok="
          ++ bool_str (bool_decide (sp_status probe = Some 0%Z)))) pe /\
    val (main w fs) = val r /\ fs_of (main w fs) = fs_of r /\
    evs (main w fs) = pe ++ evs r.
Proof.
  intros r probe.
  change (post (main w) fs (fun x f e =>
    exists pe,
      Forall (probe_event w) pe /\
      In (EvSpawn (which_cmd w) [lit "node"] probe) pe /\
      In (EvConsole LInfo (PREFIX w ++ lit " " ++ lit "node resolved ok="
            ++ bool_str (bool_decide (sp_status probe = Some 0%Z)))) pe /\
      x = val r /\ f = fs_of r /\ e = pe ++ evs r)).
  unfold main.
  do 4 (apply post_bind; wpx1; cbv beta iota).
  apply post_bind, post_runCapture. intros out ev Hok Hst Hev. cbv beta iota.
  apply post_bind. wpx1. cbv beta iota.
  change (post (after_probe w) fs (fun x f e =>
    exists pe,
      Forall (probe_event w) pe /\
      In (EvSpawn (which_cmd w) [lit "node"] probe) pe /\
      In (EvConsole LInfo (PREFIX w ++ lit " " ++ lit "node resolved ok="
            ++ bool_str (bool_decide (sp_status probe = Some 0%Z)))) pe /\
      x = val r /\ f = fs_of r /\
      [EvConsole LInfo (PREFIX w ++ lit " " ++ lit "=== BEGIN codex postinstall (local) ===")] ++
      [EvConsole LInfo (PREFIX w ++ lit " " ++ (lit "node: " ++ version w ++ lit " platform: "
          ++ platform w ++ lit " arch: " ++ arch w))] ++
      [EvConsole LInfo (PREFIX w ++ lit " " ++ (lit "cwd: " ++ cwd w))] ++
      [EvConsole LInfo (PREFIX w ++ lit " " ++ (lit "PATH: " ++ env_str (env w !! lit "PATH")))] ++
      (EvSpawn (which_cmd w) [lit "node"] probe :: ev) ++
      [EvConsole LInfo (PREFIX w ++ lit " " ++ (lit "node resolved ok=" ++ bool_str (out_ok out)))]
      ++ e = pe ++ evs r)).
  unfold post. fold r.
  set (e := evs r). clearbody e.
  match goal with
  | |- exists pe, _ /\ _ /\ _ /\ _ /\ _ /\ ?a ++ ?b ++ ?c ++ ?d ++ ?s ++ ?l ++ e = pe ++ e =>
      exists (a ++ b ++ c ++ d ++ s ++ l)
  end.
  split_and!; [| | |reflexivity|reflexivity|].
  - rewrite !Forall_app. split_and!; all_events; try (left; reflexivity).
    + right. reflexivity.
    + eapply Forall_impl; [exact Hev|]. intros; left; auto.
  - rewrite !in_app_iff. do 4 right. left. left. reflexivity.
  - rewrite !in_app_iff. do 5 right. left. fold probe in Hok. rewrite Hok. reflexivity.
  - rewrite <- !app_assoc. reflexivity.
Qed.

(** The three steps after the probe, one after the other. *)
Lemma after_probe_run w fs :
  let ra := ensureAuthFromEnvIfMissing w fs in
  let rc := ensureConfigTomlFromRepo w (fs_of ra) in
  let rv := resolve_and_verify w (fs_of rc) in
  let r := after_probe w fs in
  (val ra = Exit 1%Z /\ val r = Exit 1%Z /\ fs_of r = fs_of ra /\ evs r = evs ra) \/
  (val ra = Ret tt /\
   (((val rc = Exit 1%Z \/ val rc = Exit 2%Z) /\ val r = val rc /\ fs_of r = fs_of rc
     /\ evs r = evs ra ++ evs rc) \/
    (val rc = Ret tt /\ val r = val rv /\ fs_of r = fs_of rc
     /\ evs r = evs ra ++ evs rc ++ evs rv))).
Proof.
  intros ra rc rv r. subst r. unfold after_probe.
  rewrite !bind_val, !bind_fs, !bind_evs. fold ra.
  destruct (auth_general w fs) as ([Ha|Ha] & _). 
  2:{ fold ra in Ha. rewrite Ha. left. rewrite app_nil_r. auto. }
  fold ra in Ha. rewrite Ha. right. split; auto.
  fold rc.
  destruct (config_general w (fs_of ra)) as ([Hc|[Hc|Hc]] & _); fold rc in Hc; rewrite Hc.
  - right. fold rv. split_and!; auto.
    destruct (resolve_and_verify_spec w (fs_of rc)) as [Hf _]. exact Hf.
  - left. rewrite app_nil_r. auto.
  - left. rewrite app_nil_r. auto.
Qed.

(** The steps before resolution leave the entrypoint candidates alone. *)
Lemma find_ext_in {A} (f g : A -> bool) l :
  (forall a, In a l -> f a = g a) -> List.find f l = List.find g l.
Proof.
  induction l as [|a l IH]; simpl; intros H; auto.
  rewrite (H a) by auto. destruct (g a); auto.
Qed.

Lemma lookup_exists_ext (fs fs' : gmap (list N) node) p :
  fs' !! p = fs !! p -> lookup_exists fs' p = lookup_exists fs p.
Proof. unfold lookup_exists. intros ->. reflexivity. Qed.

Lemma provision_frame w fs p :
  let ra := ensureAuthFromEnvIfMissing w fs in
  let rc := ensureConfigTomlFromRepo w (fs_of ra) in
  (forall h, home_of w = Some h ->
     p <> codexDir w h /\ p <> authPath w h /\ p <> destConfigPath w h) ->
  fs_of ra !! p = fs !! p /\ fs_of rc !! p = fs !! p.
Proof.
  intros ra rc Hp.
  destruct (auth_general w fs) as (_ & Hfa & _).
  destruct (config_general w (fs_of ra)) as (_ & _ & Hfc & _).
  assert (fs_of ra !! p = fs !! p) as E.
  { apply Hfa. intros h Hh. destruct (Hp h Hh) as (? & ? & ?). auto. }
  split; auto. subst rc. rewrite Hfc; auto.
  intros h Hh. destruct (Hp h Hh) as (? & ? & ?). auto.
Qed.

Lemma expected_entrypoint_frame w fs :
  let ra := ensureAuthFromEnvIfMissing w fs in
  let rc := ensureConfigTomlFromRepo w (fs_of ra) in
  expected_entrypoint w (fs_of rc) = expected_entrypoint w fs.
Proof.
  intros ra rc. unfold expected_entrypoint.
  assert (lookup_exists (fs_of rc) (codexJs w) = lookup_exists fs (codexJs w)) as ->.
  { apply lookup_exists_ext, provision_frame. intros h _. split_and!; path_ne. }
  erewrite find_ext_in; [reflexivity|].
  intros name Hn. apply lookup_exists_ext, provision_frame.
  intros h _. split_and!; path_ne.
Qed.

Lemma repo_frame w fs :
  fs_of (ensureAuthFromEnvIfMissing w fs) !! repoConfigPath w = fs !! repoConfigPath w.
Proof.
  destruct (auth_general w fs) as (_ & Hfa & _). apply Hfa.
  intros h _. split; path_ne.
Qed.

Lemma quiet_no_spawn e : quiet_event e -> no_spawn e.
Proof. intros [H|(p & b & ->)]; [destruct e; simpl in *; auto; discriminate|exact I]. Qed.

Lemma auth_no_spawn w fs : Forall no_spawn (evs (ensureAuthFromEnvIfMissing w fs)).
Proof.
  destruct (auth_general w fs) as (_ & _ & He).
  eapply Forall_impl; [exact He|]. simpl.
  intros e [H|[(p & b & ->)|(h & _ & _ & _ & [[->|[->| ->]]| ->])]]; simpl; auto.
  destruct e; simpl in *; auto; discriminate.
Qed.

Lemma config_no_spawn w fs : Forall no_spawn (evs (ensureConfigTomlFromRepo w fs)).
Proof.
  destruct (config_general w fs) as (_ & _ & _ & He & _).
  eapply Forall_impl; [exact He|]. simpl.
  intros e [H|[(p & b & ->)|(_ & h & _ & _ & [H|[->|[->|[->|[[c ->]|[->| ->]]]]]])]];
    simpl; auto; destruct e; simpl in *; auto; discriminate.
Qed.

(** How a run ends: before verification, with status 1 or 2 and no
    sub-process but the probe's, or with the verdict of the verification
    call. *)
Lemma after_probe_outcome w fs :
  let r := after_probe w fs in
  ((val r = Exit 1%Z \/ val r = Exit 2%Z) /\ Forall no_spawn (evs r)
   /\ (val r = Exit 2%Z -> lookup_exists fs (repoConfigPath w) = false)
   /\ (val (provision w fs) = Ret tt -> expected_entrypoint w fs = None /\ val r = Exit 1%Z)) \/
  (exists entry before after,
     let sr := spawn w (command entry) (args entry ++ [lit "--version"]) in
     expected_entrypoint w fs = Some entry /\
     val (provision w fs) = Ret tt /\
     evs r = before ++ EvSpawn (command entry) (args entry ++ [lit "--version"]) sr :: after /\
     Forall no_spawn before /\ Forall no_spawn after /\
     val r = verdict (sp_status sr)).
Proof.
  intros r. subst r.
  assert (Hprov : val (provision w fs) =
                  match val (ensureAuthFromEnvIfMissing w fs) with
                  | Ret _ => val (ensureConfigTomlFromRepo w (fs_of (ensureAuthFromEnvIfMissing w fs)))
                  | Exit c => Exit c
                  | Throw e => Throw e
                  end).
  { unfold provision. rewrite bind_val. reflexivity. }
  pose proof (auth_no_spawn w fs) as Hna.
  pose proof (config_no_spawn w (fs_of (ensureAuthFromEnvIfMissing w fs))) as Hnc.
  pose proof (expected_entrypoint_frame w fs) as Hee. cbv zeta in Hee.
  destruct (after_probe_run w fs) as [(Ha & -> & _ & ->)|(Ha & [(Hc & -> & _ & ->)|(Hc & -> & _ & ->)])].
  - left. split_and!; auto; [discriminate|]. rewrite Hprov, Ha. discriminate.
  - left. split_and!; [tauto|rewrite Forall_app; auto| |].
    + intros E.
      destruct (config_general w (fs_of (ensureAuthFromEnvIfMissing w fs))) as (_ & [H2 _] & _).
      rewrite <- (lookup_exists_ext _ _ _ (repo_frame w fs)). auto.
    + rewrite Hprov, Ha. intros E. rewrite E in Hc. destruct Hc; discriminate.
  - destruct (resolve_and_verify_spec w
                (fs_of (ensureConfigTomlFromRepo w (fs_of (ensureAuthFromEnvIfMissing w fs)))))
      as (_ & Hrv).
    rewrite Hee in Hrv.
    set (ea := evs (ensureAuthFromEnvIfMissing w fs)) in *.
    set (ec := evs (ensureConfigTomlFromRepo w _)) in *.
    set (rv := resolve_and_verify w _) in *. clearbody ea ec.
    destruct (expected_entrypoint w fs) as [entry|].
    + right. cbv zeta in Hrv. destruct Hrv as (Hv & before & after & Hev & Hb & Haf).
      exists entry, (ea ++ ec ++ before), after. cbv zeta.
      split_and!; auto.
      * rewrite Hprov, Ha. exact Hc.
      * rewrite Hev, <- !app_assoc. reflexivity.
      * rewrite !Forall_app. split_and!; auto.
        eapply Forall_impl; [exact Hb|]. apply quiet_no_spawn.
      * eapply Forall_impl; [exact Haf|]. apply quiet_no_spawn.
    + left. destruct Hrv as (Hv & Hq). split_and!; auto.
      * rewrite !Forall_app. split_and!; auto.
        eapply Forall_impl; [exact Hq|]. apply quiet_no_spawn.
      * rewrite Hv. discriminate.
Qed.

(** ** A missing repository configuration *)

Lemma is_print_not_write e : is_print e = true -> is_fs_write e = false.
Proof. destruct e; simpl; auto; discriminate. Qed.




(** ** The credential file *)





(** C3. A credential file that exists is left as it is, whatever the
    credential variable holds: the run keeps the node at
    [~/.codex/auth.json], performs no read, write, chmod, stat or mkdir on
    it, and its credential step only checks that the path exists.  The
    same holds for any later run from the files this one leaves. *)
Theorem existing_credential_untouched w fs h n :
  home_of w = Some h -> h <> [] ->
  fs !! authPath w h = Some n ->
  let r := main w fs in
  let ra := ensureAuthFromEnvIfMissing w fs in
  fs_of r !! authPath w h = Some n /\
  (forall e, In e (evs r) -> ~ reads_or_modifies (authPath w h) e) /\
  (val ra = Ret tt /\ fs_of ra = fs /\
   evs ra = [EvExists (authPath w h) true;
             EvConsole LInfo (PREFIX w ++ lit " " ++ lit "auth path: " ++ authPath w h
                              ++ lit " exists=" ++ bool_str true)]) /\
  (forall w' h', home_of w' = Some h' -> h' <> [] -> authPath w' h' = authPath w h ->
     fs_of (ensureAuthFromEnvIfMissing w' (fs_of r)) = fs_of r /\
     fs_of (main w' (fs_of r)) !! authPath w h = Some n).
Proof.
  assert (Hone : forall w fs h n, home_of w = Some h -> h <> [] ->
            fs !! authPath w h = Some n ->
            fs_of (main w fs) !! authPath w h = Some n /\
            (forall e, In e (evs (main w fs)) -> ~ reads_or_modifies (authPath w h) e) /\
            fs_of (ensureAuthFromEnvIfMissing w fs) = fs).
  { clear. intros w fs h n Hh Hne Hn.
    assert (Hex : lookup_exists fs (authPath w h) = true)
      by (apply lookup_exists_true; rewrite Hn; eauto).
    destruct (auth_exists w h fs Hh Hne Hex) as (Hav & Haf & Hae).
    destruct (main_split w fs) as (pe & Hpe & _ & _ & _ & Hf & He). rewrite Hf, He.
    destruct (config_general w (fs_of (ensureAuthFromEnvIfMissing w fs)))
      as (_ & _ & Hfr & Hce & _).
    rewrite Haf in Hfr, Hce.
    destruct (resolve_and_verify_spec w
      (fs_of (ensureConfigTomlFromRepo w (fs_of (ensureAuthFromEnvIfMissing w fs))))) as (_ & Hrv).
    rewrite Haf in Hrv.
    assert (Hquiet : forall e, quiet_event e -> ~ reads_or_modifies (authPath w h) e).
    { intros e [H|(p & b & ->)]; [|simpl; tauto]. destruct e; simpl in *; auto; discriminate. }
    assert (Hrve : forall e, In e (evs (resolve_and_verify w (fs_of (ensureConfigTomlFromRepo w fs))))
               -> ~ reads_or_modifies (authPath w h) e).
    { intros e Hin. destruct (expected_entrypoint w _) as [entry|].
      - cbv zeta in Hrv. destruct Hrv as (_ & before & after & Hev & Hb & Ha).
        rewrite Hev in Hin. rewrite in_app_iff in Hin. simpl in Hin.
        rewrite List.Forall_forall in Hb, Ha.
        destruct Hin as [Hin|[<-|Hin]]; [apply Hquiet; auto|simpl; tauto|apply Hquiet; auto].
      - destruct Hrv as (_ & Hq). rewrite List.Forall_forall in Hq. apply Hquiet; auto. }
    assert (Hcev : forall e, In e (evs (ensureConfigTomlFromRepo w fs))
               -> ~ reads_or_modifies (authPath w h) e).
    { intros e Hin. rewrite List.Forall_forall in Hce.
      destruct (Hce e Hin) as [H|[H|(_ & h' & Hh' & _ & H)]].
      - apply Hquiet. left. auto.
      - apply Hquiet. right. auto.
      - assert (h' = h) as -> by congruence.
        destruct H as [H|[->|[->|[->|[[c ->]|[->| ->]]]]]]; simpl;
          try tauto; try path_ne.
        apply Hquiet. left. auto. }
    assert (Hframe : fs_of (ensureConfigTomlFromRepo w fs) !! authPath w h = Some n).
    { rewrite Hfr; auto. intros h' Hh'. assert (h' = h) as -> by congruence.
      split; path_ne. }
    split_and!; auto.
    - destruct (after_probe_run w fs)
        as [(_ & _ & -> & _)|(_ & [(_ & _ & -> & _)|(_ & _ & -> & _)])];
        rewrite ?Haf; auto.
    - intros e Hin. rewrite in_app_iff in Hin. destruct Hin as [Hin|Hin].
      + rewrite List.Forall_forall in Hpe. destruct (Hpe e Hin) as [H| ->]; [|simpl; tauto].
        apply Hquiet. left. auto.
      + assert (Hall : In e (evs (ensureAuthFromEnvIfMissing w fs)
                             ++ evs (ensureConfigTomlFromRepo w fs)
                             ++ evs (resolve_and_verify w (fs_of (ensureConfigTomlFromRepo w fs))))).
        { revert Hin.
          destruct (after_probe_run w fs)
            as [(_ & _ & _ & ->)|(_ & [(_ & _ & _ & ->)|(_ & _ & _ & ->)])];
            rewrite ?Haf, ?in_app_iff; tauto. }
        rewrite !in_app_iff in Hall. destruct Hall as [H|[H|H]]; auto.
        rewrite Hae in H. simpl in H. destruct H as [<-|[<-|[]]]; simpl; tauto. }
  intros Hh Hne Hn r ra. subst r ra.
  destruct (Hone w fs h n Hh Hne Hn) as (H1 & H2 & H3).
  assert (Hex : lookup_exists fs (authPath w h) = true)
    by (apply lookup_exists_true; rewrite Hn; eauto).
  destruct (auth_exists w h fs Hh Hne Hex) as (Hav & Haf & Hae).
  split_and!; auto.
  intros w' h' Hh' Hne' Hp. rewrite <- Hp in H1.
  destruct (Hone w' (fs_of (main w fs)) h' n Hh' Hne' H1) as (H1' & _ & H3').
  rewrite <- Hp. auto.
Qed.

(** A home that already holds a credential file, and a variable that
    would replace it. *)
Lemma existing_credential_untouched_witness :
  fs_of (main w_secret fs_with_auth) !! lit "/home/u/.codex/auth.json"
  = Some (File (utf8 (lit "old")) 0x1A4).
Proof.
  refine (proj1 (existing_credential_untouched w_secret fs_with_auth (lit "/home/u")
                   (File (utf8 (lit "old")) 0x1A4) _ _ _)).
  all: try (vm_compute; reflexivity).
  all: try (vm_compute; discriminate).
Defined.

(** ** Verification and exit statuses *)

Lemma version_is_not_node (args0 : list (list N)) :
  args0 ++ [lit "--version"] <> [lit "node"].
Proof.
  intros H. apply (f_equal (@last (list N))) in H. rewrite last_snoc in H.
  vm_compute in H. discriminate.
Qed.

(** A run that made the verification call ends with its verdict. *)
Lemma verification_verdict w fs cmd args0 res :
  In (EvSpawn cmd (args0 ++ [lit "--version"]) res) (evs (main w fs)) ->
  val (main w fs) = verdict (sp_status res).
Proof.
  destruct (main_split w fs) as (pe & Hpe & _ & _ & -> & _ & ->).
  rewrite in_app_iff. intros [Hin|Hin].
  { rewrite List.Forall_forall in Hpe. destruct (Hpe _ Hin) as [H|H]; [discriminate|].
    injection H as _ H _. destruct (version_is_not_node _ H). }
  destruct (after_probe_outcome w fs) as [(_ & Hns & _)|(entry & before & after & Hrun)].
  { rewrite List.Forall_forall in Hns. destruct (Hns _ Hin). }
  cbv zeta in Hrun. destruct Hrun as (_ & _ & Hev & Hb & Ha & Hv).
  rewrite Hev in Hin. rewrite in_app_iff in Hin. simpl in Hin.
  rewrite List.Forall_forall in Hb, Ha.
  destruct Hin as [Hin|[Heq|Hin]]; [destruct (Hb _ Hin)| |destruct (Ha _ Hin)].
  injection Heq as _ _ <-. exact Hv.
Qed.

(** C4. A run whose verification sub-process ends with a non-zero status
    [s] terminates with [process.exit(s)]; when the status is not available
    ([null]: killed by a signal, or not spawned), it terminates with 1. *)
Theorem verification_status_propagates w fs cmd args0 res :
  In (EvSpawn cmd (args0 ++ [lit "--version"]) res) (evs (main w fs)) ->
  (forall s, sp_status res = Some s -> s <> 0%Z ->
     val (main w fs) = Exit s /\ exit_status (main w fs) = s) /\
  (sp_status res = None ->
     val (main w fs) = Exit 1%Z /\ exit_status (main w fs) = 1%Z).
Proof.
  intros Hin. pose proof (verification_verdict w fs cmd args0 res Hin) as Hv.
  unfold exit_status. rewrite Hv. split.
  - intros s -> Hs. destruct s; [congruence| |]; auto.
  - intros ->. auto.
Qed.

(** Scenario D, the version query ending with status 3, and a version
    query killed by a signal. *)
Lemma verification_status_propagates_witness :
  (val (main w_status3 fs_repo) = Exit 3%Z /\ exit_status (main w_status3 fs_repo) = 3%Z) /\
  val (main w_killed fs_repo) = Exit 1%Z.
Proof.
  split.
  - refine (proj1 (verification_status_propagates w_status3 fs_repo (lit "/usr/bin/node")
              [lit "/repo/node_modules/@openai/codex/bin/codex.js"] (exited 3 []) _)
            3%Z _ _).
    + vm_compute. repeat first [left; reflexivity | right].
    + reflexivity.
    + discriminate.
  - refine (proj1 (proj2 (verification_status_propagates w_killed fs_repo (lit "/usr/bin/node")
              [lit "/repo/node_modules/@openai/codex/bin/codex.js"] killed _) _)).
    + vm_compute. repeat first [left; reflexivity | right].
    + reflexivity.
Defined.

(** C5, as stated, fails: a version query that ends with status 3 makes
    the process exit with 3, which is neither 1 nor 2. *)
Lemma exit_status_three :
  val (main w_status3 fs_repo) = Exit 3%Z /\ 3%Z <> 1%Z /\ 3%Z <> 2%Z.
Proof. vm_compute. split_and!; try reflexivity; discriminate. Qed.

(** C5 (amended). A run returns or ends by [process.exit] with a status
    that is 1, or 2 when the repository configuration is missing, or the
    non-zero status of the verification sub-process; no exception leaves
    [main]. *)
Theorem fatal_exit_codes w fs :
  let r := main w fs in
  val r = Ret tt \/
  exists c, val r = Exit c /\
    (c = 1%Z
     \/ (c = 2%Z /\ lookup_exists fs (repoConfigPath w) = false)
     \/ (c <> 0%Z /\ exists cmd args0 res,
           In (EvSpawn cmd (args0 ++ [lit "--version"]) res) (evs r)
           /\ sp_status res = Some c)).
Proof.
  intros r. subst r.
  destruct (main_split w fs) as (pe & _ & _ & _ & -> & _ & ->).
  destruct (after_probe_outcome w fs)
    as [([Hv|Hv] & _ & H2 & _)|(entry & before & after & Hrun)].
  - right. exists 1%Z. auto.
  - right. exists 2%Z. split; auto.
  - cbv zeta in Hrun. destruct Hrun as (_ & _ & Hev & _ & _ & Hv).
    rewrite Hv, Hev. unfold verdict.
    destruct (sp_status _) as [[|p|p]|] eqn:E; [left; reflexivity| | |right; exists 1%Z; auto].
    all: right; eexists; split; [reflexivity|]; right; right; split; [discriminate|].
    all: exists (command entry), (args entry), (spawn w (command entry) (args entry ++ [lit "--version"])).
    all: split; [|exact E]; rewrite !in_app_iff; right; right; left; reflexivity.
Qed.

(** ** Entrypoint resolution *)

Lemma expected_documented w fs :
  expected_entrypoint w fs = documented_entrypoint w fs.
Proof.
  unfold expected_entrypoint, documented_entrypoint, documented_order, candidates.
  rewrite codexJs_spelled.
  case_bool_decide; cbn [List.find fst snd];
    rewrite ?bin_cmd_spelled, ?bin_exe_spelled, ?bin_codex_spelled;
    repeat match goal with
    | |- context [lookup_exists fs ?p] => destruct (lookup_exists fs p)
    end;
    rewrite ?bin_cmd_spelled, ?bin_exe_spelled, ?bin_codex_spelled; reflexivity.
Qed.




(** ** The configuration copy *)

Lemma file_content_Some n c : file_content n = Some c <-> exists m, n = Some (File c m).
Proof.
  destruct n as [[]|]; simpl; split; try congruence.
  - intros [= ->]. eauto.
  - intros [m' [= -> _]]. reflexivity.
  - intros [m' H]. discriminate.
  - intros [m' H]. discriminate.
Qed.

(** A run that returns has copied the repository file, as it found it,
    to the home directory. *)
Lemma config_copied w fs :
  val (main w fs) = Ret tt ->
  exists h c,
    home_of w = Some h /\ h <> [] /\
    file_content (fs !! repoConfigPath w) = Some c /\
    file_content (fs_of (main w fs) !! destConfigPath w h) = Some c /\
    file_content (fs_of (main w fs) !! repoConfigPath w) = Some c.
Proof.
  destruct (main_split w fs) as (pe & _ & _ & _ & -> & -> & _).
  intros Hv.
  destruct (after_probe_run w fs)
    as [(_ & Hr & _)|(Ha & [(Hc & Hr & _)|(Hc & _ & Hf & _)])].
  { congruence. }
  { rewrite Hv in Hr. destruct Hc; congruence. }
  rewrite Hf.
  destruct (config_general w (fs_of (ensureAuthFromEnvIfMissing w fs)))
    as (_ & _ & Hfr & _ & Hok & _).
  destruct (Hok Hc) as (h & c & m & m' & Hh & Hne & Hrepo & Hdest).
  rewrite repo_frame in Hrepo.
  exists h, c. split_and!; auto.
  - rewrite Hrepo. reflexivity.
  - rewrite Hdest. reflexivity.
  - destruct (decide (repoConfigPath w = destConfigPath w h)) as [E|E].
    + rewrite E, Hdest. reflexivity.
    + rewrite Hfr.
      * rewrite repo_frame, Hrepo. reflexivity.
      * intros h' Hh'. assert (h' = h) as -> by congruence. split; [path_ne|exact E].
Qed.

(** C7. A run that returns has overwritten [~/.codex/config.toml] with
    the bytes of the repository's file, whatever the destination held.
    Hence running again leaves the same bytes there, and so does any
    other successful run over a checkout whose file has the same bytes. *)
Theorem config_copy_idempotent w fs :
  let r1 := main w fs in
  val r1 = Ret tt ->
  exists h c,
    home_of w = Some h /\ h <> [] /\
    file_content (fs !! repoConfigPath w) = Some c /\
    file_content (fs_of r1 !! destConfigPath w h) = Some c /\
    (let r2 := main w (fs_of r1) in
     val r2 = Ret tt -> file_content (fs_of r2 !! destConfigPath w h) = Some c) /\
    (forall w' fs',
       cwd w' = cwd w -> platform w' = platform w -> home_of w' = home_of w ->
       file_content (fs' !! repoConfigPath w') = Some c ->
       val (main w' fs') = Ret tt ->
       file_content (fs_of (main w' fs') !! destConfigPath w h) = Some c).
Proof.
  intros r1 Hv. subst r1.
  destruct (config_copied w fs Hv) as (h & c & Hh & Hne & Hsrc & Hdst & Hsrc').
  exists h, c. split_and!; auto.
  - intros r2 Hv2. subst r2.
    destruct (config_copied w _ Hv2) as (h2 & c2 & Hh2 & _ & Hs2 & Hd2 & _).
    assert (h2 = h) as -> by congruence.
    assert (c2 = c) as -> by congruence. exact Hd2.
  - intros w' fs' Hcwd Hplat Hhome Hs' Hv'.
    destruct (config_copied w' fs' Hv') as (h2 & c2 & Hh2 & _ & Hs2 & Hd2 & _).
    assert (h2 = h) as -> by congruence.
    assert (c2 = c) as -> by congruence.
    assert (destConfigPath w' h = destConfigPath w h) as <-; [|exact Hd2].
    unfold destConfigPath, codexDir, path_join, sep. rewrite Hplat. reflexivity.
Qed.

(** Scenario A, run twice. *)
Lemma config_copy_idempotent_witness :
  file_content (fs_of (main w_plain fs_repo) !! lit "/home/u/.codex/config.toml") = Some toml /\
  file_content (fs_of (main w_plain (fs_of (main w_plain fs_repo)))
                  !! lit "/home/u/.codex/config.toml") = Some toml.
Proof.
  assert (Hv : val (main w_plain fs_repo) = Ret tt) by (vm_compute; reflexivity).
  destruct (config_copy_idempotent w_plain fs_repo Hv)
    as (h & c & Hh & _ & Hsrc & Hdst & Hagain & _).
  assert (h = lit "/home/u") as -> by (vm_compute in Hh; injection Hh as <-; reflexivity).
  assert (c = toml) as -> by (vm_compute in Hsrc; injection Hsrc as <-; reflexivity).
  split; [exact Hdst|]. apply Hagain. vm_compute. reflexivity.
Defined.

(** ** The environment probe *)

Lemma post_any {A} (m : M A) (fs : gmap (list N) node)
    (Q : ctl A -> gmap (list N) node -> list event -> Prop) :
  (forall v f e, Q v f e) -> post m fs Q.
Proof. intros H. apply H. Qed.

(** The credential step always leaves a trace: a warning or the check of
    its destination. *)
Lemma auth_starts w fs : evs (ensureAuthFromEnvIfMissing w fs) <> [].
Proof.
  destruct (falsy (home_of w)) eqn:Hf.
  { destruct (auth_nohome w fs Hf) as (_ & _ & ->). discriminate. }
  change (post (ensureAuthFromEnvIfMissing w) fs (fun _ _ e => e <> [])).
  unfold ensureAuthFromEnvIfMissing. rewrite Hf. cbv beta iota zeta.
  apply post_bind, post_exists. cbv beta iota. apply post_any. discriminate.
Qed.

(** C8. The environment probe never ends the run: whatever the lookup of
    [node] returns, it is logged, and the run goes on with the credential
    step, in the files as they were; the outcome of the run is that of the
    steps after the probe. *)
Theorem probe_never_fatal w fs :
  let probe := spawn w (which_cmd w) [lit "node"] in
  let ra := ensureAuthFromEnvIfMissing w fs in
  exists pe rest,
    Forall (probe_event w) pe /\
    In (EvSpawn (which_cmd w) [lit "node"] probe) pe /\
    In (EvConsole LInfo (PREFIX w ++ lit " " ++ lit "node resolved ok="
          ++ bool_str (bool_decide (sp_status probe = Some 0%Z)))) pe /\
    evs (main w fs) = pe ++ evs ra ++ rest /\ evs ra <> [] /\
    val (main w fs) = val (after_probe w fs) /\
    fs_of (main w fs) = fs_of (after_probe w fs).
Proof.
  intros probe ra. subst probe ra.
  destruct (main_split w fs) as (pe & Hpe & Hsp & Hlog & Hv & Hf & He).
  exists pe.
  destruct (after_probe_run w fs)
    as [(_ & _ & _ & Hr)|(_ & [(_ & _ & _ & Hr)|(_ & _ & _ & Hr)])];
    eexists; (split_and!; [exact Hpe|exact Hsp|exact Hlog| |apply auth_starts|exact Hv|exact Hf]);
    rewrite He, Hr; [rewrite app_nil_r| |]; reflexivity.
Qed.

(** ** No home directory *)

(** C9, as stated, fails: without a home directory and without the
    repository configuration, the configuration step ends the process with
    2, not 1. *)
Lemma homeless_missing_config :
  falsy (home_of w_homeless) = true /\
  lookup_exists fs_no_config (repoConfigPath w_homeless) = false /\
  val (ensureConfigTomlFromRepo w_homeless fs_no_config) = Exit 2%Z /\
  val (main w_homeless fs_no_config) = Exit 2%Z.
Proof. vm_compute. split_and!; reflexivity. Qed.

(** C9 (amended). When no home directory can be resolved, the credential
    step logs a warning and returns, leaving the files alone, and the
    configuration step ends the process: with 1 when the repository
    configuration exists, and with 2, from its earlier check, when it is
    missing. *)
Theorem no_home_asymmetry w fs :
  falsy (home_of w) = true ->
  let ra := ensureAuthFromEnvIfMissing w fs in
  (val ra = Ret tt /\ fs_of ra = fs /\
   evs ra = [EvConsole LWarn (PREFIX w ++ lit " WARN: "
               ++ lit "Could not resolve home directory; skip ~/.codex/auth.json bootstrap")]) /\
  fs_of (main w fs) = fs /\
  (lookup_exists fs (repoConfigPath w) = true ->
     val (ensureConfigTomlFromRepo w fs) = Exit 1%Z /\ val (main w fs) = Exit 1%Z) /\
  (lookup_exists fs (repoConfigPath w) = false ->
     val (ensureConfigTomlFromRepo w fs) = Exit 2%Z /\ val (main w fs) = Exit 2%Z).
Proof.
  intros Hf ra. subst ra.
  destruct (auth_nohome w fs Hf) as (Hav & Haf & Hae).
  destruct (main_split w fs) as (pe & _ & _ & _ & -> & -> & _).
  assert (Hrun : val (after_probe w fs) = val (ensureConfigTomlFromRepo w fs)
                 /\ fs_of (after_probe w fs) = fs_of (ensureConfigTomlFromRepo w fs)
                 /\ (val (ensureConfigTomlFromRepo w fs) = Exit 1%Z
                     \/ val (ensureConfigTomlFromRepo w fs) = Exit 2%Z)).
  { destruct (after_probe_run w fs)
      as [(Ha & _)|(_ & [(Hc & Hr & Hfs & _)|(Hc & _)])].
    - congruence.
    - rewrite Haf in *. auto.
    - rewrite Haf in Hc. exfalso.
      destruct (config_general w fs) as (_ & _ & _ & _ & Hok & _).
      destruct (Hok Hc) as (h & _ & _ & _ & Hh & Hne & _).
      rewrite Hh in Hf. destruct h; simpl in Hf; congruence. }
  destruct Hrun as (Hv & Hfs & Hcases).
  split_and!; auto.
  - rewrite Hfs.
    destruct (lookup_exists fs (repoConfigPath w)) eqn:Hex.
    + apply (config_nohome w fs Hex Hf).
    + apply (config_absent w fs Hex).
  - intros Hex. destruct (config_nohome w fs Hex Hf) as (Hc & _). rewrite Hv. auto.
  - intros Hex. destruct (config_absent w fs Hex) as (Hc & _). rewrite Hv. auto.
Qed.

(** No home directory, and a checkout that has its configuration. *)
Lemma no_home_asymmetry_witness :
  val (ensureAuthFromEnvIfMissing w_homeless fs_repo) = Ret tt /\
  val (main w_homeless fs_repo) = Exit 1%Z.
Proof.
  assert (Hf : falsy (home_of w_homeless) = true) by (vm_compute; reflexivity).
  assert (Hex : lookup_exists fs_repo (repoConfigPath w_homeless) = true)
    by (vm_compute; reflexivity).
  destruct (no_home_asymmetry w_homeless fs_repo Hf) as ((Ha & _) & _ & H1 & _).
  split; [exact Ha|exact (proj2 (H1 Hex))].
Defined.

(** ** A blank credential variable *)

Lemma blank_is_missing v : trim v = [] -> secret_missing (Some v) = true.
Proof.
  intros H. unfold secret_missing. simpl. rewrite H. simpl.
  apply orb_true_r.
Qed.

Lemma home_of_unset w :
  home_of (unset (lit "CODEX_AUTH_JSON") w) = home_of w.
Proof.
  unfold home_of, unset. simpl.
  rewrite !lookup_delete_ne by (intros H; vm_compute in H; discriminate).
  reflexivity.
Qed.

Lemma res_ext {A} (r r' : res A) :
  val r = val r' -> fs_of r = fs_of r' -> evs r = evs r' -> r = r'.
Proof. destruct r, r'; simpl; congruence. Qed.

(** The credential step does not tell a missing value from another. *)
Lemma auth_missing_same w w' fs :
  home_of w' = home_of w -> platform w' = platform w ->
  now w' = now w -> pid w' = pid w ->
  secret_missing (env w !! lit "CODEX_AUTH_JSON") = true ->
  secret_missing (env w' !! lit "CODEX_AUTH_JSON") = true ->
  ensureAuthFromEnvIfMissing w fs = ensureAuthFromEnvIfMissing w' fs.
Proof.
  intros Hhome Hplat Hnow Hpid Hs Hs'.
  assert (Hprefix : PREFIX w' = PREFIX w).
  { unfold PREFIX, ts. rewrite Hnow, Hpid. reflexivity. }
  assert (Hpath : forall h, authPath w' h = authPath w h).
  { intros h. unfold authPath, codexDir, path_join, sep. rewrite Hplat. reflexivity. }
  destruct (falsy (home_of w)) eqn:Hf.
  { destruct (auth_nohome w fs Hf) as (? & ? & ?).
    rewrite <- Hhome in Hf. destruct (auth_nohome w' fs Hf) as (? & ? & ?).
    apply res_ext; rewrite <- ?Hprefix; congruence. }
  destruct (falsy_false _ Hf) as (h & Hh & Hne).
  assert (Hh' : home_of w' = Some h) by congruence.
  destruct (lookup_exists fs (authPath w h)) eqn:Hex.
  { destruct (auth_exists w h fs Hh Hne Hex) as (? & ? & ?).
    rewrite <- Hpath in Hex. destruct (auth_exists w' h fs Hh' Hne Hex) as (? & ? & ?).
    apply res_ext; rewrite <- ?Hprefix, <- ?Hpath; congruence. }
  destruct (auth_nosecret w h fs Hh Hne Hex Hs) as (? & ? & ?).
  rewrite <- Hpath in Hex. destruct (auth_nosecret w' h fs Hh' Hne Hex Hs') as (? & ? & ?).
  apply res_ext; rewrite <- ?Hprefix, <- ?Hpath; congruence.
Qed.

(** C10. A credential variable that is not empty but blank (empty once
    trimmed) counts as unset: the credential step does what it does without
    the variable, logs, returns without a write, and the run goes on with
    the configuration step; no credential file appears. *)
Theorem blank_secret_skipped w fs v :
  env w !! lit "CODEX_AUTH_JSON" = Some v -> v <> [] -> trim v = [] ->
  let ra := ensureAuthFromEnvIfMissing w fs in
  ra = ensureAuthFromEnvIfMissing (unset (lit "CODEX_AUTH_JSON") w) fs /\
  val ra = Ret tt /\ fs_of ra = fs /\
  (forall e, In e (evs ra) -> is_fs_write e = false) /\
  (forall h, home_of w = Some h -> h <> [] -> fs !! authPath w h = None ->
     evs ra = [EvExists (authPath w h) false;
               EvConsole LInfo (PREFIX w ++ lit " " ++ lit "auth path: " ++ authPath w h
                                ++ lit " exists=" ++ bool_str false);
               EvConsole LInfo (PREFIX w ++ lit " "
                 ++ lit "CODEX_AUTH_JSON not set; skipping auth.json creation")]
     /\ fs_of (main w fs) !! authPath w h = None) /\
  (exists pe rest,
     evs (main w fs) = pe ++ evs ra ++ evs (ensureConfigTomlFromRepo w fs) ++ rest).
Proof.
  intros Hv Hne Htrim ra. subst ra.
  assert (Hs : secret_missing (env w !! lit "CODEX_AUTH_JSON") = true)
    by (rewrite Hv; apply blank_is_missing; auto).
  assert (Hskip : credential_skips w fs) by (right; right; exact Hs).
  destruct (auth_skips w fs Hskip) as (Hav & Haf & Hae).
  split_and!; auto.
  - apply auth_missing_same; auto using home_of_unset.
    unfold unset. simpl. rewrite lookup_delete_eq. reflexivity.
  - intros e Hin. rewrite List.Forall_forall in Hae.
    destruct (Hae e Hin) as [H|(p & b & ->)]; [apply is_print_not_write; auto|reflexivity].
  - intros h Hh Hneh Habs.
    assert (Hex : lookup_exists fs (authPath w h) = false) by (apply lookup_exists_false; auto).
    split; [apply (auth_nosecret w h fs Hh Hneh Hex Hs)|].
    destruct (main_split w fs) as (pe & _ & _ & _ & _ & -> & _).
    destruct (config_general w (fs_of (ensureAuthFromEnvIfMissing w fs)))
      as (_ & _ & Hfr & _).
    assert (Hc : fs_of (ensureConfigTomlFromRepo w (fs_of (ensureAuthFromEnvIfMissing w fs)))
                 !! authPath w h = None).
    { rewrite Hfr; [rewrite Haf; auto|].
      intros h' Hh'. assert (h' = h) as -> by congruence. split; path_ne. }
    rewrite Haf in Hc.
    destruct (after_probe_run w fs)
      as [(_ & _ & -> & _)|(_ & [(_ & _ & -> & _)|(_ & _ & -> & _)])];
      rewrite ?Haf; auto.
  - destruct (main_split w fs) as (pe & _ & _ & _ & _ & _ & ->). exists pe.
    destruct (after_probe_run w fs)
      as [(Ha & _)|(_ & [(_ & _ & _ & ->)|(_ & _ & _ & ->)])]; [congruence| |];
      rewrite Haf; eexists; [rewrite app_nil_r|]; reflexivity.
Qed.

(** The variable holds one space. *)
Lemma blank_secret_skipped_witness :
  ensureAuthFromEnvIfMissing w_blank fs_repo
  = ensureAuthFromEnvIfMissing (unset (lit "CODEX_AUTH_JSON") w_blank) fs_repo /\
  fs_of (ensureAuthFromEnvIfMissing w_blank fs_repo) = fs_repo.
Proof.
  assert (Hv : env w_blank !! lit "CODEX_AUTH_JSON" = Some (lit " "))
    by (vm_compute; reflexivity).
  assert (Hne : lit " " <> []) by (vm_compute; discriminate).
  assert (Ht : trim (lit " ") = []) by (vm_compute; reflexivity).
  destruct (blank_secret_skipped w_blank fs_repo (lit " ") Hv Hne Ht) as (H1 & _ & H3 & _).
  split; [exact H1|exact H3].
Defined.

(** * Further properties *)

(** ** Formatting *)

(** A check made on every number below a bound holds below that bound. *)
Lemma below_forall (P : N -> bool) (k : nat) :
  forallb P (map N.of_nat (seq 0 k)) = true ->
  forall n, n < N.of_nat k -> P n = true.
Proof.
  intros H n Hn. rewrite forallb_forall in H. apply H.
  apply in_map_iff. exists (N.to_nat n). split; [lia|]. apply in_seq. lia.
Qed.

Lemma octal_ok_all : forall k, k < 4096 -> octal_ok k = true.
Proof.
  intros k Hk. apply (below_forall octal_ok (64 * 64)); [|exact Hk].
  vm_compute. reflexivity.
Qed.

(** X1. [modeStr] prints a leading 0 and then one to four octal digits
    whose value is the permission bits of the mode, whatever the file-type
    bits above them; a value that is not a number prints as n/a. *)
Theorem modeStr_permission_bits (m : N) :
  modeStr None = lit "n/a" /\
  exists ds,
    modeStr (Some m) = 48 :: ds /\
    (1 <= length ds <= 4)%nat /\
    Forall (fun d => 48 <= d <= 55) ds /\
    octal_value ds = N.land m o7777 /\
    modeStr (Some (N.land m o7777)) = modeStr (Some m).
Proof.
  split; [reflexivity|].
  assert (Hk : N.land m o7777 < 4096).
  { change o7777 with (N.ones 12). rewrite N.land_ones. apply N.mod_lt. discriminate. }
  pose proof (octal_ok_all _ Hk) as H. unfold octal_ok in H. cbv zeta in H.
  rewrite !andb_true_iff in H. destruct H as (((H1 & H2) & H3) & H4).
  exists (to_octal (N.land m o7777)). split_and!.
  - reflexivity.
  - apply Nat.leb_le. exact H1.
  - apply Nat.leb_le. exact H2.
  - apply List.Forall_forall. intros d Hd. rewrite forallb_forall in H3.
    specialize (H3 d Hd). rewrite andb_true_iff in H3. destruct H3 as [Ha Hb].
    apply N.leb_le in Ha. apply N.leb_le in Hb. lia.
  - apply N.eqb_eq. exact H4.
  - unfold modeStr. do 2 f_equal.
    change o7777 with (N.ones 12). rewrite !N.land_ones. apply N.Div0.mod_mod.
Qed.

Lemma pad_two_all : forall n, n < 100 ->
  bool_decide (pad n = two_digits n) = true.
Proof.
  apply (below_forall (fun n => bool_decide (pad n = two_digits n)) (10 * 10)).
  vm_compute. reflexivity.
Qed.

Lemma dec_four_all : forall n, n < 10000 ->
  ((n <? 1000) || bool_decide (dec n = four_digits n)) = true.
Proof.
  apply (below_forall (fun n => (n <? 1000) || bool_decide (dec n = four_digits n)) (100 * 100)).
  vm_compute. reflexivity.
Qed.

Lemma pad_two n : n < 100 -> pad n = two_digits n.
Proof.
  intros H. pose proof (pad_two_all n H) as E.
  apply bool_decide_eq_true_1 in E. exact E.
Qed.

Lemma dec_four n : 1000 <= n < 10000 -> dec n = four_digits n.
Proof.
  intros [H1 H2]. pose proof (dec_four_all n H2) as E.
  apply orb_true_iff in E. destruct E as [E|E].
  - apply N.ltb_lt in E. lia.
  - apply bool_decide_eq_true_1 in E. exact E.
Qed.

(** X2. For a date with a four-digit year, [ts] is the nineteen
    characters YYYY-MM-DD hh:mm:ss, every field on two digits and the
    month, which [getMonth] counts from 0, shown from 1. *)
Theorem ts_format (w : World) :
  let d := now w in
  1000 <= getFullYear d < 10000 -> getMonth d < 12 -> getDate d < 100 ->
  getHours d < 100 -> getMinutes d < 100 -> getSeconds d < 100 ->
  ts w = four_digits (getFullYear d) ++ lit "-" ++ two_digits (getMonth d + 1)
         ++ lit "-" ++ two_digits (getDate d) ++ lit " " ++ two_digits (getHours d)
         ++ lit ":" ++ two_digits (getMinutes d) ++ lit ":" ++ two_digits (getSeconds d)
  /\ length (ts w) = 19%nat.
Proof.
  intros d Hy Hm Hd Hh Hmi Hs. subst d.
  assert (E : ts w = four_digits (getFullYear (now w)) ++ lit "-"
            ++ two_digits (getMonth (now w) + 1)
            ++ lit "-" ++ two_digits (getDate (now w)) ++ lit " "
            ++ two_digits (getHours (now w))
            ++ lit ":" ++ two_digits (getMinutes (now w)) ++ lit ":"
            ++ two_digits (getSeconds (now w))).
  { unfold ts. cbv zeta.
    rewrite (dec_four _ Hy), !pad_two by lia. reflexivity. }
  split; [exact E|]. rewrite E. reflexivity.
Qed.

Lemma ts_format_witness : length (ts w_plain) = 19%nat.
Proof.
  refine (proj2 (ts_format w_plain _ _ _ _ _ _)); vm_compute; try split; congruence.
Defined.

(** ** The helpers around system calls *)

Lemma permission_bits_of_stat t m :
  N.land t o7777 = 0 -> N.land (N.lor t (N.land m o7777)) o7777 = N.land m o7777.
Proof.
  intros Ht. rewrite N.land_lor_distr_l, Ht, N.lor_0_l, <- N.land_assoc, N.land_diag.
  reflexivity.
Qed.

Lemma type_bits_of_stat t m :
  N.land t S_IFMT = t -> N.land (N.lor t (N.land m o7777)) S_IFMT = t.
Proof.
  intros Ht. rewrite N.land_lor_distr_l, Ht, <- N.land_assoc.
  change (N.land o7777 S_IFMT) with 0. rewrite N.land_0_r, N.lor_0_r. reflexivity.
Qed.

(** X3. [statSafe] never throws and never ends the process: it makes one
    [statSync] call, leaves the files alone, and returns [null] exactly
    when that call fails, for a missing path or a failing system call.
    The mode of a value it returns holds the permission bits of the node
    below its file-type bits, which tell a file from a directory; so
    [modeStr] prints of it the permission bits alone. *)
Theorem statSafe_never_throws w p fs :
  let r := statSafe w p fs in
  fs_of r = fs /\ evs r = [EvStat p] /\
  (exists st, val r = Ret st) /\
  (val r = Ret None <-> (io_fault w (CallStat p) <> None \/ fs !! p = None)) /\
  (forall st, val r = Ret (Some st) ->
     exists n, fs !! p = Some n /\
       let m := match n with File _ m => m | Dir m => m end in
       N.land (st_mode st) o7777 = N.land m o7777 /\
       N.land (st_mode st) S_IFMT = match n with File _ _ => S_IFREG | Dir _ => S_IFDIR end /\
       modeStr (Some (st_mode st)) = modeStr (Some m)).
Proof.
  unfold statSafe, try_catch. run_call.
  destruct (io_fault w (CallStat p)); simpl.
  { split_and!; eauto; [split; auto; intros; left; discriminate|intros; discriminate]. }
  destruct (fs !! p) as [[c m|m]|]; simpl; split_and!; eauto.
  - split; [discriminate|]. intros [H|H]; congruence.
  - intros st [= <-]. eexists. split; [reflexivity|]. cbn [st_mode].
    rewrite permission_bits_of_stat, type_bits_of_stat by reflexivity. auto.
  - split; [discriminate|]. intros [H|H]; congruence.
  - intros st [= <-]. eexists. split; [reflexivity|]. cbn [st_mode].
    rewrite permission_bits_of_stat, type_bits_of_stat by reflexivity. auto.
  - split; auto.
  - intros; discriminate.
Qed.

(** X4. [runCapture] always returns: it starts exactly one sub-process,
    leaves the files alone, and reports [ok] exactly when the status is 0,
    so that a sub-process killed by a signal or never started (status
    [null]) is not ok.  Its output fields are strings even where
    [spawnSync] gave [null], each stream is echoed exactly when it is not
    empty, and a spawn error is logged as an error. *)
Theorem runCapture_reports w cmd args fs :
  let sr := spawn w cmd args in
  let r := runCapture w cmd args fs in
  fs_of r = fs /\
  exists out ev,
    val r = Ret out /\
    evs r = EvSpawn cmd args sr :: ev /\
    Forall (fun e => is_print e = true) ev /\
    (out_ok out = true <-> sp_status sr = Some 0%Z) /\
    out_status out = sp_status sr /\
    out_stdout out = default [] (sp_stdout sr) /\
    out_stderr out = default [] (sp_stderr sr) /\
    ((exists text, In (EvOutput Stdout text) ev) <-> out_stdout out <> []) /\
    ((exists text, In (EvOutput Stderr text) ev) <-> out_stderr out <> []) /\
    ((exists line, In (EvConsole LError line) ev) <-> sp_error sr <> None).
Proof.
  intros sr r. subst r.
  change (post (runCapture w cmd args) fs (fun x f e =>
    f = fs /\
    exists out ev,
      x = Ret out /\ e = EvSpawn cmd args sr :: ev /\
      Forall (fun e => is_print e = true) ev /\
      (out_ok out = true <-> sp_status sr = Some 0%Z) /\
      out_status out = sp_status sr /\
      out_stdout out = default [] (sp_stdout sr) /\
      out_stderr out = default [] (sp_stderr sr) /\
      ((exists text, In (EvOutput Stdout text) ev) <-> out_stdout out <> []) /\
      ((exists text, In (EvOutput Stderr text) ev) <-> out_stderr out <> []) /\
      ((exists line, In (EvConsole LError line) ev) <-> sp_error sr <> None))).
  unfold runCapture. fold sr. cbv beta iota zeta.
  apply post_bind, post_emit. cbv beta iota.
  apply post_bind, post_info. intros l1. cbv beta iota.
  apply post_bind. unfold when at 1. cbn [out_stdout out_stderr out_error].
  destruct (default [] (sp_stdout sr)) as [|c1 s1] eqn:E1; cbn [truthy];
    (apply post_emit || apply post_ret); cbv beta iota;
    apply post_bind; unfold when at 1;
    (destruct (default [] (sp_stderr sr)) as [|c2 s2] eqn:E2; cbn [truthy];
      (apply post_emit || apply post_ret); cbv beta iota;
      apply post_bind;
      (destruct (sp_error sr) as [err|] eqn:E3;
        [apply post_error; intros l2|apply post_ret]; cbv beta iota;
        apply post_ret)).
  all: split; [reflexivity|]; eexists; eexists.
  all: split; [reflexivity|]; split; [simpl app; reflexivity|].
  all: cbn [out_ok out_status out_stdout out_stderr].
  all: rewrite ?E1, ?E2.
  all: split; [repeat constructor|].
  all: split; [apply bool_decide_eq_true|].
  all: split_and!; try reflexivity.
  all: try (split; [intros _; discriminate|intros _; eexists; simpl; eauto 10]; fail).
  all: split; [intros [t H]; simpl in H; exfalso; intuition discriminate|intros H; congruence].
Qed.

(** ** What a run prints *)

Section Always.
Context {A : Type}.
Variable P : event -> Prop.

Lemma always_ret (a : A) : always P (ret a).
Proof. intros fs. constructor. Qed.

Lemma always_exit c : always P (@process_exit A c).
Proof. intros fs. constructor. Qed.

Lemma always_bind {B} (m : M B) (k : B -> M A) :
  always P m -> (forall b, always P (k b)) -> always P (bind m k).
Proof.
  intros Hm Hk fs. rewrite bind_evs. apply Forall_app. split; [apply Hm|].
  destruct (val (m fs)); [apply Hk|constructor|constructor].
Qed.

Lemma always_try (m : M A) (h : js_error -> M A) :
  always P m -> (forall e, always P (h e)) -> always P (try_catch m h).
Proof.
  intros Hm Hh fs. rewrite try_evs. apply Forall_app. split; [apply Hm|].
  destruct (val (m fs)); [constructor|constructor|apply Hh].
Qed.

Lemma always_post (m : M A) :
  (forall fs, post m fs (fun _ _ e => Forall P e)) -> always P m.
Proof. intros H fs. apply H. Qed.
End Always.

Section AlwaysCalls.
Variable P : event -> Prop.
Variable w : World.

Lemma always_emit e : P e -> always P (emit e).
Proof. intros H fs. repeat constructor. exact H. Qed.

Lemma always_when b (m : M unit) : always P m -> always P (when b m).
Proof. intros H. destruct b; [exact H|apply always_ret]. Qed.

Lemma always_exists p : (forall b, P (EvExists p b)) -> always P (existsSync p).
Proof. intros H fs. repeat constructor. apply H. Qed.

Lemma always_mkdir p : P (EvMkdir p) -> always P (mkdirSync w p).
Proof. intros H. apply always_post. intros fs. apply post_mkdir; intros; repeat constructor; auto. Qed.

Lemma always_read p : P (EvReadFile p) -> always P (readFileSync w p).
Proof. intros H. apply always_post. intros fs. apply post_read; intros; repeat constructor; auto. Qed.

Lemma always_write p data mode :
  P (EvWriteFile p data mode) -> always P (writeFileSync w p data mode).
Proof. intros H. apply always_post. intros fs. apply post_write; intros; repeat constructor; auto. Qed.

Lemma always_chmod_quiet p mode :
  P (EvChmod p mode) -> always P (try_catch (chmodSync w p mode) (fun _ => ret tt)).
Proof.
  intros H. apply always_post. intros fs.
  apply post_chmod_quiet; intros; repeat constructor; auto.
Qed.

Lemma always_statSafe p : P (EvStat p) -> always P (statSafe w p).
Proof. intros H. apply always_post. intros fs. apply post_statSafe; intros; repeat constructor; auto. Qed.
End AlwaysCalls.

(** Goes through a computation, leaving what each event must satisfy. *)
Ltac always1 :=
  cbv beta iota zeta;
  lazymatch goal with
  | |- always _ (bind _ _) => apply always_bind; [|intros ?]
  | |- always _ (try_catch (chmodSync _ _ _) _) => apply always_chmod_quiet
  | |- always _ (try_catch _ _) => apply always_try; [|intros ?]
  | |- always _ (ret _) => apply always_ret
  | |- always _ (process_exit _) => apply always_exit
  | |- always _ (info _ _) => unfold info at 1; apply always_emit
  | |- always _ (warn _ _) => unfold warn at 1; apply always_emit
  | |- always _ (error _ _) => unfold error at 1; apply always_emit
  | |- always _ (emit _) => apply always_emit
  | |- always _ (when _ _) => apply always_when
  | |- always _ (existsSync _) => apply always_exists; intros ?
  | |- always _ (mkdirSync _ _) => apply always_mkdir
  | |- always _ (readFileSync _ _) => apply always_read
  | |- always _ (writeFileSync _ _ _ _) => apply always_write
  | |- always _ (statSafe _ _) => apply always_statSafe
  | |- always _ (if ?b then _ else _) => destruct b
  | |- always _ (match ?o with Some _ => _ | None => _ end) => destruct o
  end.
Ltac always_go := repeat always1.

Ltac tagged := always_go; try exact I; try (simpl; eexists; reflexivity).

Lemma runCapture_tagged w cmd args : always (well_tagged w) (runCapture w cmd args).
Proof. unfold runCapture. tagged. Qed.

Lemma auth_tagged w : always (well_tagged w) (ensureAuthFromEnvIfMissing w).
Proof. unfold ensureAuthFromEnvIfMissing. tagged. Qed.

Lemma config_tagged w : always (well_tagged w) (ensureConfigTomlFromRepo w).
Proof. unfold ensureConfigTomlFromRepo. tagged. Qed.

Lemma first_candidate_tagged w dir names :
  always (well_tagged w) (first_candidate w dir names).
Proof.
  induction names as [|name rest IH]; cbn [first_candidate]; [apply always_ret|].
  always1. { tagged. } destruct b; [tagged|exact IH].
Qed.

Lemma find_tagged w : always (well_tagged w) (findLocalCodexEntrypoint w).
Proof.
  unfold findLocalCodexEntrypoint. always1. { tagged. }
  destruct b; [tagged|apply first_candidate_tagged].
Qed.

Lemma verify_tagged w entry : always (well_tagged w) (verifyLocalCodex w entry).
Proof.
  unfold verifyLocalCodex. always1; [apply runCapture_tagged|]. tagged.
Qed.

Lemma main_tagged w : always (well_tagged w) (main w).
Proof.
  unfold main.
  do 4 (always1; [tagged|]).
  always1; [apply runCapture_tagged|].
  always1; [tagged|].
  always1; [apply auth_tagged|].
  always1; [apply config_tagged|].
  always1; [apply find_tagged|].
  always1.
  - always1; [apply verify_tagged|]. tagged.
  - tagged.
Qed.

(** X5. Every print of a run, on the console or as the echo of a
    sub-process's output, writes a text that starts with the prefix
    computed once at start-up (time stamp and process id), followed by the
    tag of its kind: a space for information, WARN: for warnings, ERROR:
    for errors, stdout: and stderr: for echoes.  This is said of each print
    call, that is of the first line it writes: the lines that follow in
    the same text, a stack trace or the further lines of an echoed output,
    carry no prefix. *)
Theorem every_print_tagged w fs : Forall (well_tagged w) (evs (main w fs)).
Proof. exact (main_tagged w fs). Qed.

(** ** How a journal ends *)

Lemma ends_logged_bind {A B} closing (m : M A) (k : A -> M B) fs :
  ends_logged None (m fs) ->
  (forall a, val (m fs) = Ret a -> ends_logged closing (k a (fs_of (m fs)))) ->
  ends_logged closing (bind m k fs).
Proof.
  unfold ends_logged. rewrite bind_val, bind_evs. intros Hm Hk.
  destruct (val (m fs)) as [a|c|e]; [|rewrite app_nil_r; exact Hm|destruct Hm].
  specialize (Hk a eq_refl). rewrite last_app.
  destruct (val (k a (fs_of (m fs)))); [|destruct Hk as [line ->]; eauto|exact Hk].
  destruct closing; [rewrite Hk; reflexivity|exact I].
Qed.

Lemma returns_ends {A} (r : res A) : (exists a, val r = Ret a) -> ends_logged None r.
Proof. intros [a H]. unfold ends_logged. rewrite H. exact I. Qed.

Lemma runCapture_reports_returns w cmd args fs :
  exists out, val (runCapture w cmd args fs) = Ret out /\ fs_of (runCapture w cmd args fs) = fs.
Proof.
  change (post (runCapture w cmd args) fs (fun x f _ => exists out, x = Ret out /\ f = fs)).
  apply post_runCapture. intros out ev _ _ _. eauto.
Qed.

Ltac next_state :=
  match goal with
  | |- ends_logged _ (_ (fs_of ?r)) => let fs' := fresh "fs" in generalize (fs_of r); intros fs'
  end.

Ltac ends_leaves :=
  cbv beta iota zeta; simpl app;
  first [exact I | eexists; reflexivity
        | rewrite ?app_nil_r; rewrite last_snoc; eexists; reflexivity].

Lemma auth_ends w fs : ends_logged None (ensureAuthFromEnvIfMissing w fs).
Proof.
  change (post (ensureAuthFromEnvIfMissing w) fs (fun x _ e =>
    match x with
    | Exit _ => exists line, last e = Some (EvConsole LError line)
    | Ret _ => True
    | Throw _ => False
    end)).
  unfold ensureAuthFromEnvIfMissing. wp. all: ends_leaves.
Qed.

Lemma config_ends w fs : ends_logged None (ensureConfigTomlFromRepo w fs).
Proof.
  change (post (ensureConfigTomlFromRepo w) fs (fun x _ e =>
    match x with
    | Exit _ => exists line, last e = Some (EvConsole LError line)
    | Ret _ => True
    | Throw _ => False
    end)).
  unfold ensureConfigTomlFromRepo. wp. all: ends_leaves.
Qed.

Lemma verify_ends w entry fs : ends_logged None (verifyLocalCodex w entry fs).
Proof.
  change (post (verifyLocalCodex w entry) fs (fun x _ e =>
    match x with
    | Exit _ => exists line, last e = Some (EvConsole LError line)
    | Ret _ => True
    | Throw _ => False
    end)).
  unfold verifyLocalCodex.
  apply post_bind, post_runCapture. intros out ev _ _ _. wp.
  - eexists. rewrite app_nil_r. apply last_snoc.
  - exact I.
Qed.

Lemma main_ends w fs :
  ends_logged
    (Some (EvConsole LInfo (PREFIX w ++ lit " " ++ lit "=== END codex postinstall (local) ===")))
    (main w fs).
Proof.
  unfold main.
  do 4 (apply ends_logged_bind; [exact I|intros _ _; next_state]).
  apply ends_logged_bind.
  { apply returns_ends. edestruct runCapture_reports_returns as (out & H & _).
    eexists. exact H. }
  intros whichNode _. next_state.
  apply ends_logged_bind; [exact I|intros _ _; next_state].
  apply ends_logged_bind; [apply auth_ends|intros _ _; next_state].
  apply ends_logged_bind; [apply config_ends|intros _ _; next_state].
  apply ends_logged_bind.
  { apply returns_ends. eexists. apply find_spec. }
  intros [entry|] _; next_state.
  - apply ends_logged_bind; [apply verify_ends|intros _ _]. reflexivity.
  - unfold ends_logged. simpl. eexists. reflexivity.
Qed.

Lemma ends_tagged {A} w closing (r : res A) :
  ends_logged (Some closing) r -> Forall (well_tagged w) (evs r) ->
  (forall c, val r = Exit c ->
     exists msg, last (evs r) = Some (EvConsole LError (PREFIX w ++ lit " ERROR: " ++ msg))) /\
  (forall u, val r = Ret u -> last (evs r) = Some closing).
Proof.
  unfold ends_logged. intros He Ht. split.
  - intros c Hc. rewrite Hc in He. destruct He as [line Hl].
    rewrite List.Forall_forall in Ht.
    assert (Hin : In (EvConsole LError line) (evs r)).
    { destruct (evs r) as [|e l _] using rev_ind; [discriminate|].
      rewrite last_snoc in Hl. injection Hl as ->. rewrite in_app_iff. right. left. reflexivity. }
    destruct (Ht _ Hin) as [msg ->]. eauto.
  - intros u Hu. rewrite Hu in He. exact He.
Qed.

(** X6. No call of [process.exit] is silent: when a run ends by
    [process.exit], whatever the status, the last thing it did before was
    to print an error, with the prefix and the ERROR: tag; and when [main]
    returns, the last thing it did was to print the END line. *)
Theorem failure_is_logged w fs :
  let r := main w fs in
  (forall c, val r = Exit c ->
     exists msg, last (evs r) = Some (EvConsole LError (PREFIX w ++ lit " ERROR: " ++ msg))) /\
  (forall u, val r = Ret u ->
     last (evs r)
     = Some (EvConsole LInfo (PREFIX w ++ lit " " ++ lit "=== END codex postinstall (local) ==="))).
Proof.
  intros r. exact (ends_tagged w _ r (main_ends w fs) (main_tagged w fs)).
Qed.

(** ** When the provisioning steps succeed *)

(** [readFileSync], with the reason of each failure. *)
Lemma post_read_why (w : World) (fs : gmap (list N) node)
    (Q : ctl (list N) -> gmap (list N) node -> list event -> Prop) (p : list N) :
  (forall e, io_fault w (CallReadFile p) = Some e -> Q (Throw e) fs [EvReadFile p]) ->
  (forall m, io_fault w (CallReadFile p) = None -> fs !! p = Some (Dir m) ->
     Q (Throw (sys_error w EISDIR (CallReadFile p))) fs [EvReadFile p]) ->
  (io_fault w (CallReadFile p) = None -> fs !! p = None ->
     Q (Throw (sys_error w ENOENT (CallReadFile p))) fs [EvReadFile p]) ->
  (forall c m, io_fault w (CallReadFile p) = None -> fs !! p = Some (File c m) ->
     Q (Ret c) fs [EvReadFile p]) ->
  post (readFileSync w p) fs Q.
Proof.
  unfold post. run_call. intros H1 H2 H3 H4.
  destruct (io_fault w (CallReadFile p)); simpl; [eauto|].
  destruct (fs !! p) as [[]|]; simpl; eauto.
Qed.

Ltac wpy1 :=
  cbv beta iota zeta;
  lazymatch goal with
  | |- post (readFileSync _ _) _ _ => apply post_read_why; intros
  | _ => wp1
  end.
Ltac wpy := repeat wpy1; cbv beta iota zeta.

(** The configuration step, once the repository file is found and the home
    directory resolved: it returns exactly when the copy can go through,
    and then leaves the directory and the copy in place. *)
Lemma config_exact w h fs :
  lookup_exists fs (repoConfigPath w) = true ->
  home_of w = Some h -> h <> [] ->
  let r := ensureConfigTomlFromRepo w fs in
  (val r = Ret tt \/ val r = Exit 1%Z) /\
  (val r = Ret tt <-> config_can_copy w h fs) /\
  (val r = Ret tt -> exists c m md,
     fs !! repoConfigPath w = Some (File c m) /\
     fs_of r !! codexDir w h = Some (Dir md) /\
     fs_of r !! destConfigPath w h = Some (File c (copied_mode w h fs)) /\
     (forall p, p <> codexDir w h -> p <> destConfigPath w h -> fs_of r !! p = fs !! p) /\
     (forall md', fs !! codexDir w h = Some (Dir md') -> md = md')).
Proof.
  intros Hex Hh Hne r. destruct (home_resolved w h Hh Hne) as [Hf Hd]. subst r.
  change (post (ensureConfigTomlFromRepo w) fs (fun x f e =>
    (x = Ret tt \/ x = Exit 1%Z) /\
    (x = Ret tt <-> config_can_copy w h fs) /\
    (x = Ret tt -> exists c m md,
       fs !! repoConfigPath w = Some (File c m) /\
       f !! codexDir w h = Some (Dir md) /\
       f !! destConfigPath w h = Some (File c (copied_mode w h fs)) /\
       (forall p, p <> codexDir w h -> p <> destConfigPath w h -> f !! p = fs !! p) /\
       (forall md', fs !! codexDir w h = Some (Dir md') -> md = md')))).
  unfold ensureConfigTomlFromRepo. cbv beta iota zeta.
  apply post_bind, post_info. intros l0. cbv beta iota.
  apply post_bind, post_exists. rewrite Hex. cbv beta iota.
  apply post_bind. unfold when at 1. simpl negb. apply post_ret. cbv beta iota.
  apply post_bind. rewrite Hf. unfold when at 1. apply post_ret. cbv beta iota.
  rewrite Hd.
  wpy.
  all: simpl app; norm_lookups; simplify_eq.
  all: unfold config_can_copy, copied_mode.
  all: split; [auto|].
  all: split; [split; [try discriminate; intros _|try (intros; reflexivity)]|try discriminate].
  all: try (intros (? & ? & ? & (? & ? & ?) & ? & ?); exfalso; congruence).
  all: try (intros (? & ? & ? & (? & ? & ?) & ? & ?); exfalso; naive_solver).
  all: try (split_and!; eauto; try congruence; fail).
  all: intros _; norm_lookups.
  all: repeat match goal with
       | H : io_fault _ _ = _ |- _ => rewrite H
       | H : ?m !! ?k = _ |- context [?m !! ?k] => rewrite H
       | H : _ <> None \/ _ |- _ => destruct H as [H|H]; [|discriminate H]
       end.
  all: try (destruct (io_fault w (CallChmod _)) eqn:?; [|congruence]).
  all: do 3 eexists; split_and!; try reflexivity;
       try (intros; norm_lookups; auto; fail); try congruence.
Qed.

(** The credential step, when it sets out to create the file: it returns
    exactly when the directory can be made and the file written. *)
Lemma auth_exact w h fs :
  home_of w = Some h -> h <> [] ->
  lookup_exists fs (authPath w h) = false ->
  secret_missing (env w !! lit "CODEX_AUTH_JSON") = false ->
  let r := ensureAuthFromEnvIfMissing w fs in
  (val r = Ret tt <-> credential_can_write w h fs) /\
  (val r = Exit 1%Z -> forall p, p <> codexDir w h -> fs_of r !! p = fs !! p).
Proof.
  intros Hh Hne Hex Hs r. destruct (home_resolved w h Hh Hne) as [Hf Hd]. subst r.
  change (post (ensureAuthFromEnvIfMissing w) fs (fun x f e =>
    (x = Ret tt <-> credential_can_write w h fs) /\
    (x = Exit 1%Z -> forall p, p <> codexDir w h -> f !! p = fs !! p))).
  unfold ensureAuthFromEnvIfMissing. rewrite Hf, Hd. cbv beta iota zeta.
  apply post_bind, post_exists. rewrite Hex. cbv beta iota.
  apply post_bind, post_info. intros l0. cbv beta iota. rewrite Hs.
  apply lookup_exists_false in Hex.
  wp.
  all: simpl app; norm_lookups; simplify_eq.
  all: unfold credential_can_write.
  all: split; [split; [try discriminate; intros _|try (intros; reflexivity)]|try discriminate].
  all: try (intros (? & ? & ?); exfalso; congruence).
  all: try (intros (? & ? & ?); exfalso; naive_solver).
  all: try (split_and!; eauto; try congruence; fail).
  all: try (intros _ p Hp; norm_lookups; auto; fail).
  all: try (exfalso; congruence).
Qed.

(** X7. Once the repository file is found and the home directory
    resolved, the configuration step returns exactly when the directory can
    be made, the repository path is a file that can be read and the
    destination can be written; in every other case it ends the process
    with 1.  A failing [chmod] or [stat] is not among the causes. *)
Theorem config_returns_iff w h fs :
  lookup_exists fs (repoConfigPath w) = true ->
  home_of w = Some h -> h <> [] ->
  let r := ensureConfigTomlFromRepo w fs in
  (val r = Ret tt <-> config_can_copy w h fs) /\
  (~ config_can_copy w h fs -> val r = Exit 1%Z).
Proof.
  intros Hex Hh Hne r. subst r.
  destruct (config_exact w h fs Hex Hh Hne) as ([Hv|Hv] & Hiff & _); split; auto.
  - intros Hn. destruct Hn. apply Hiff, Hv.
Qed.

Lemma config_returns_iff_witness :
  val (ensureConfigTomlFromRepo w_plain fs_repo) = Ret tt.
Proof.
  refine (proj2 (proj1 (config_returns_iff w_plain (lit "/home/u") fs_repo _ _ _)) _).
  1-3: vm_compute; congruence.
  unfold config_can_copy. split_and!; try (vm_compute; reflexivity).
  - intros c m. vm_compute. discriminate.
  - eexists. eexists. vm_compute. reflexivity.
  - intros m. vm_compute. discriminate.
Defined.

(** ** Successful and failed runs *)

(** The steps of a run that returns. *)
Lemma success_stages w fs :
  val (main w fs) = Ret tt ->
  let ra := ensureAuthFromEnvIfMissing w fs in
  let rc := ensureConfigTomlFromRepo w (fs_of ra) in
  val ra = Ret tt /\ val rc = Ret tt /\
  val (resolve_and_verify w (fs_of rc)) = Ret tt /\
  fs_of (main w fs) = fs_of rc.
Proof.
  destruct (main_split w fs) as (pe & _ & _ & _ & -> & -> & _).
  intros Hv ra rc. subst ra rc.
  destruct (after_probe_run w fs)
    as [(_ & Hr & _)|(Ha & [(Hc & Hr & _)|(Hc & Hr & Hf & _)])].
  - congruence.
  - rewrite Hv in Hr. destruct Hc; congruence.
  - split_and!; auto. congruence.
Qed.

(** The credential step leaves the destination of the configuration and
    the repository file alone. *)
Lemma auth_frame_dest w h fs :
  home_of w = Some h ->
  fs_of (ensureAuthFromEnvIfMissing w fs) !! destConfigPath w h = fs !! destConfigPath w h.
Proof.
  intros Hh. destruct (auth_general w fs) as (_ & Hfr & _). apply Hfr.
  intros h' Hh'. assert (h' = h) as -> by congruence. split; path_ne.
Qed.

Lemma config_found w fs :
  val (ensureConfigTomlFromRepo w fs) = Ret tt ->
  lookup_exists fs (repoConfigPath w) = true.
Proof.
  intros Hv. destruct (config_general w fs) as (_ & [_ H2] & _).
  destruct (lookup_exists fs (repoConfigPath w)); [reflexivity|].
  rewrite (H2 eq_refl) in Hv. discriminate.
Qed.

Lemma config_home w fs :
  val (ensureConfigTomlFromRepo w fs) = Ret tt ->
  exists h, home_of w = Some h /\ h <> [].
Proof.
  intros Hv. destruct (config_general w fs) as (_ & _ & _ & _ & Hok & _).
  destruct (Hok Hv) as (h & _ & _ & _ & ? & ? & _). eauto.
Qed.



(** X9. When the credential file has to be created and cannot be (the
    directory cannot be made, or the file cannot be written), the run ends
    with 1 at once.  The configuration step does not start: the repository
    configuration is neither looked for nor read, and nothing touches its
    destination, which stays as it was.  The one sub-process of the run is
    the probe, [which node] or [where node]. *)
Theorem credential_failure_stops w h fs :
  home_of w = Some h -> h <> [] ->
  fs !! authPath w h = None ->
  secret_missing (env w !! lit "CODEX_AUTH_JSON") = false ->
  ~ credential_can_write w h fs ->
  let r := main w fs in
  val r = Exit 1%Z /\
  fs_of r !! destConfigPath w h = fs !! destConfigPath w h /\
  (forall e, In e (evs r) ->
     (forall b, e <> EvExists (repoConfigPath w) b) /\
     ~ reads_or_modifies (repoConfigPath w) e /\
     ~ reads_or_modifies (destConfigPath w h) e /\
     (forall cmd args0 res, e = EvSpawn cmd args0 res ->
        cmd = which_cmd w /\ args0 = [lit "node"] /\ res = spawn w cmd args0)).
Proof.
  intros Hh Hne Habs Hs Hcant r. subst r.
  assert (Hex : lookup_exists fs (authPath w h) = false) by (apply lookup_exists_false; auto).
  destruct (auth_exact w h fs Hh Hne Hex Hs) as (Hiff & _).
  destruct (auth_write w h fs Hh Hne Hex Hs) as (Hv & Hfr & Hev & _).
  assert (Ha : val (ensureAuthFromEnvIfMissing w fs) = Exit 1%Z).
  { destruct Hv as [Hv|Hv]; [|exact Hv]. destruct Hcant. apply Hiff, Hv. }
  destruct (main_split w fs) as (pe & Hpe & _ & _ & -> & -> & ->).
  destruct (after_probe_run w fs) as [(_ & -> & -> & ->)|(Ha' & _)]; [|congruence].
  split_and!; auto.
  - apply Hfr; path_ne.
  - intros e Hin. rewrite in_app_iff in Hin. destruct Hin as [Hin|Hin].
    + rewrite List.Forall_forall in Hpe.
      destruct (Hpe e Hin) as [H| ->].
      * destruct e; try discriminate H; simpl; split_and!; auto; intros; discriminate.
      * simpl. split_and!; auto.
        intros ? ? ? [= <- <- <-]. auto.
    + rewrite List.Forall_forall in Hev.
      destruct (Hev e Hin) as [H|[->|[[->|[->| ->]]| ->]]]; simpl.
      * destruct e; try discriminate H; simpl; split_and!; auto; intros; discriminate.
      * split_and!; auto; try (intros; discriminate).
        intros b [= E _]. revert E. path_ne.
      * split_and!; try path_ne; intros; discriminate.
      * split_and!; try path_ne; intros; discriminate.
      * split_and!; try path_ne; intros; discriminate.
      * split_and!; try path_ne; intros; discriminate.
Qed.

Lemma credential_failure_stops_witness :
  val (main w_no_mkdir fs_repo) = Exit 1%Z /\
  fs_of (main w_no_mkdir fs_repo) !! lit "/home/u/.codex/config.toml" = None.
Proof.
  assert (H : ~ credential_can_write w_no_mkdir (lit "/home/u") fs_repo).
  { intros (Hm & _). vm_compute in Hm. discriminate. }
  destruct (credential_failure_stops w_no_mkdir (lit "/home/u") fs_repo) as (Hv & Hd & _);
    try (vm_compute; congruence); auto.
Defined.

(** ** What a run leaves in place *)



















Lemma credential_skips_dec w fs : credential_skips w fs \/ ~ credential_skips w fs.
Proof.
  unfold credential_skips.
  destruct (falsy (home_of w)); [auto|].
  destruct (lookup_exists fs _); [auto|].
  destruct (secret_missing _); [auto|].
  right. intros [H|[H|H]]; discriminate.
Qed.

Lemma not_skips w h fs :
  home_of w = Some h -> h <> [] -> ~ credential_skips w fs ->
  lookup_exists fs (authPath w h) = false /\
  secret_missing (env w !! lit "CODEX_AUTH_JSON") = false.
Proof.
  intros Hh Hne Hn. destruct (home_resolved w h Hh Hne) as [_ Hd].
  unfold credential_skips in Hn. rewrite Hd in Hn.
  split.
  - destruct (lookup_exists fs (authPath w h)); [destruct Hn; auto|reflexivity].
  - destruct (secret_missing _); [destruct Hn; auto|reflexivity].
Qed.

(** The credential step returns exactly when it has nothing to create or
    can create its file. *)
Lemma auth_returns_iff w h fs :
  home_of w = Some h -> h <> [] ->
  val (ensureAuthFromEnvIfMissing w fs) = Ret tt <->
  (credential_skips w fs \/ credential_can_write w h fs).
Proof.
  intros Hh Hne. destruct (credential_skips_dec w fs) as [Hs|Hn].
  - destruct (auth_skips w fs Hs) as (Hv & _). split; auto.
  - destruct (not_skips w h fs Hh Hne Hn) as [Hex Hsec].
    destruct (auth_exact w h fs Hh Hne Hex Hsec) as (Hiff & _).
    rewrite Hiff. tauto.
Qed.

(** The configuration copy meets the same conditions before and after a
    credential step that returned. *)
Lemma can_copy_after_auth w h fs :
  home_of w = Some h -> h <> [] ->
  val (ensureAuthFromEnvIfMissing w fs) = Ret tt ->
  config_can_copy w h (fs_of (ensureAuthFromEnvIfMissing w fs)) <-> config_can_copy w h fs.
Proof.
  intros Hh Hne Hv. unfold config_can_copy.
  rewrite repo_frame, (auth_frame_dest w h fs Hh).
  destruct (credential_skips_dec w fs) as [Hs|Hn].
  { destruct (auth_skips w fs Hs) as (_ & -> & _). tauto. }
  destruct (not_skips w h fs Hh Hne Hn) as [Hex Hsec].
  destruct (auth_exact w h fs Hh Hne Hex Hsec) as (Hiff & _).
  destruct (proj1 Hiff Hv) as (Hm & Hdir & Hw).
  destruct (auth_write w h fs Hh Hne Hex Hsec) as (_ & _ & _ & Hok).
  destruct (Hok Hm Hw Hdir) as (_ & _ & md & Hd).
  rewrite Hd. split; intros (? & ? & ? & ? & ? & ?); split_and!; auto; congruence.
Qed.

Lemma verdict_returns s : verdict s = Ret tt <-> s = Some 0%Z.
Proof. destruct s as [[| |]|]; simpl; split; congruence. Qed.

(** When a run returns. *)
Lemma run_returns_iff_aux w fs :
  val (main w fs) = Ret tt <-> run_can_succeed w fs.
Proof.
  unfold run_can_succeed.
  destruct (main_split w fs) as (pe & _ & _ & _ & -> & _ & _).
  pose proof (expected_entrypoint_frame w fs) as Hee. cbv zeta in Hee.
  destruct (resolve_and_verify_spec w
    (fs_of (ensureConfigTomlFromRepo w (fs_of (ensureAuthFromEnvIfMissing w fs))))) as (_ & Hrv).
  rewrite Hee in Hrv.
  split.
  - intros Hv.
    destruct (after_probe_run w fs)
      as [(_ & Hr & _)|(Ha & [(Hc & Hr & _)|(Hc & Hr & _)])].
    { congruence. }
    { rewrite Hv in Hr. destruct Hc; congruence. }
    destruct (config_home _ _ Hc) as (h & Hh & Hne).
    destruct (config_exact w h _ (config_found _ _ Hc) Hh Hne) as (_ & Hiff & _).
    rewrite Hv in Hr. symmetry in Hr.
    destruct (expected_entrypoint w fs) as [entry|]; [|destruct Hrv; congruence].
    cbv zeta in Hrv. destruct Hrv as (Hverdict & _).
    exists h, entry. split_and!; auto.
    + apply (auth_returns_iff w h fs Hh Hne), Ha.
    + apply (can_copy_after_auth w h fs Hh Hne Ha), Hiff, Hc.
    + apply verdict_returns. congruence.
  - intros (h & entry & Hh & Hne & Hcred & Hcopy & Hentry & Hst).
    assert (Ha : val (ensureAuthFromEnvIfMissing w fs) = Ret tt)
      by (apply (auth_returns_iff w h fs Hh Hne), Hcred).
    assert (Hex : lookup_exists (fs_of (ensureAuthFromEnvIfMissing w fs)) (repoConfigPath w) = true).
    { rewrite (lookup_exists_ext _ _ _ (repo_frame w fs)).
      destruct Hcopy as (_ & _ & _ & (c & m & Hrepo) & _).
      unfold lookup_exists. rewrite Hrepo. reflexivity. }
    destruct (config_exact w h _ Hex Hh Hne) as (_ & Hiff & _).
    assert (Hc : val (ensureConfigTomlFromRepo w (fs_of (ensureAuthFromEnvIfMissing w fs))) = Ret tt)
      by (apply Hiff, (can_copy_after_auth w h fs Hh Hne Ha), Hcopy).
    rewrite Hentry in Hrv. cbv zeta in Hrv. destruct Hrv as (Hverdict & _).
    rewrite Hst in Hverdict. unfold verdict in Hverdict.
    destruct (after_probe_run w fs)
      as [(Ha' & _)|(_ & [(Hc' & _)|(_ & Hr & _)])].
    + congruence.
    + destruct Hc'; congruence.
    + rewrite Hr. exact Hverdict.
Qed.


(** X12. Running again changes nothing: after a run that returned, a
    second run in the same environment returns too and leaves every file
    as the first left it, content and mode. *)
Theorem second_run_is_identity w fs :
  val (main w fs) = Ret tt ->
  val (main w (fs_of (main w fs))) = Ret tt /\
  fs_of (main w (fs_of (main w fs))) = fs_of (main w fs).
Proof.
  intros Hv.
  destruct (success_stages w fs Hv) as (Ha & Hc & Hrv & Hf).
  destruct (proj1 (run_returns_iff_aux w fs) Hv)
    as (h & entry & Hh & Hne & Hcred & Hcopy & Hentry & Hst).
  set (fa := fs_of (ensureAuthFromEnvIfMissing w fs)) in *.
  destruct (config_exact w h fa (config_found _ _ Hc) Hh Hne) as (_ & _ & Hstate).
  destruct (Hstate Hc) as (c & m & md & Hrepo & Hdir & Hdest & Hframe & _). clear Hstate.
  set (f := fs_of (main w fs)) in *. rewrite <- Hf in Hdir, Hdest, Hframe.
  assert (Hcopya : config_can_copy w h fa)
    by (apply (can_copy_after_auth w h fs Hh Hne Ha), Hcopy).
  (* the credential file: there, or never wanted *)
  assert (Hskip : credential_skips w f).
  { destruct (home_resolved w h Hh Hne) as [_ Hd].
    unfold credential_skips. rewrite Hd.
    destruct (secret_missing (env w !! lit "CODEX_AUTH_JSON")) eqn:Hs; [auto|].
    right. left. apply lookup_exists_true.
    assert (Hauth : is_Some (fa !! authPath w h)).
    { destruct (lookup_exists fs (authPath w h)) eqn:Hex.
      - destruct (auth_exists w h fs Hh Hne Hex) as (_ & Hfa & _). fold fa in Hfa.
        rewrite Hfa. apply lookup_exists_true, Hex.
      - destruct (auth_exact w h fs Hh Hne Hex Hs) as (Hiff & _).
        destruct (proj1 Hiff Ha) as (Hm & Hd' & Hw).
        destruct (auth_write w h fs Hh Hne Hex Hs) as (_ & _ & _ & Hok).
        destruct (Hok Hm Hw Hd') as (_ & Hfile & _). fold fa in Hfile. rewrite Hfile. eauto. }
    rewrite Hframe; [exact Hauth|path_ne|path_ne]. }
  destruct (auth_skips w f Hskip) as (Ha2 & Hfa2 & _).
  (* the repository file after the first run *)
  assert (Hrepo2 : exists m2, f !! repoConfigPath w = Some (File c m2)).
  { destruct (decide (repoConfigPath w = destConfigPath w h)) as [E|E].
    - rewrite E, Hdest. eauto.
    - rewrite Hframe; [eauto|path_ne|exact E]. }
  destruct Hrepo2 as (m2 & Hrepo2).
  assert (Hcopy2 : config_can_copy w h f).
  { destruct Hcopya as (H1 & _ & H3 & _ & H5 & _).
    unfold config_can_copy. rewrite Hdir, Hdest, Hrepo2. split_and!; eauto; congruence. }
  assert (Hex2 : lookup_exists f (repoConfigPath w) = true)
    by (unfold lookup_exists; rewrite Hrepo2; reflexivity).
  destruct (config_exact w h f Hex2 Hh Hne) as (_ & Hiff2 & Hstate2).
  assert (Hc2 : val (ensureConfigTomlFromRepo w f) = Ret tt) by (apply Hiff2, Hcopy2).
  destruct (Hstate2 Hc2) as (c2 & m2' & md2 & Hr2 & Hdir2 & Hdest2 & Hframe2 & Hmd).
  assert (c2 = c) as -> by congruence.
  assert (md2 = md) as -> by (apply Hmd, Hdir).
  assert (Hmode : copied_mode w h f = copied_mode w h fa).
  { unfold copied_mode. rewrite Hdest. unfold copied_mode.
    destruct (io_fault w (CallChmod (destConfigPath w h))); reflexivity. }
  rewrite Hmode in Hdest2.
  assert (Hsame : fs_of (ensureConfigTomlFromRepo w f) = f).
  { apply map_eq. intros p.
    destruct (decide (p = codexDir w h)) as [->|E1]; [congruence|].
    destruct (decide (p = destConfigPath w h)) as [->|E2]; [congruence|].
    apply Hframe2; auto. }
  (* the second run *)
  destruct (main_split w f) as (pe & _ & _ & _ & -> & -> & _).
  destruct (after_probe_run w f)
    as [(Ha' & _)|(_ & [(Hc' & _)|(_ & Hr & Hfs & _)])].
  - congruence.
  - rewrite Hfa2 in Hc'. destruct Hc'; congruence.
  - rewrite Hfa2 in Hr, Hfs. rewrite Hfs, Hr, Hsame. split; [|reflexivity].
    destruct (resolve_and_verify_spec w f) as (_ & Hrv2).
    assert (Hee : expected_entrypoint w f = expected_entrypoint w fs).
    { rewrite Hf. apply expected_entrypoint_frame. }
    rewrite Hee, Hentry in Hrv2. cbv zeta in Hrv2. destruct Hrv2 as (-> & _).
    rewrite Hst. reflexivity.
Qed.

Lemma second_run_is_identity_witness :
  val (main w_secret (fs_of (main w_secret fs_repo))) = Ret tt /\
  fs_of (main w_secret (fs_of (main w_secret fs_repo))) = fs_of (main w_secret fs_repo).
Proof.
  apply (second_run_is_identity w_secret fs_repo). vm_compute. reflexivity.
Defined.

(** ** What resolution returns *)

(** X13. For a working directory in normal form,
    [findLocalCodexEntrypoint] only answers what is there: the entry it
    returns is one of the documented order, whose path exists, so that
    [codex.js] comes with the runtime as its command and a binary of
    [node_modules/.bin] as a command of its own; and it returns [null]
    only when none of the documented paths exists.  Off Windows a command
    that is run directly is always [node_modules/.bin/codex]: [codex.cmd]
    and [codex.exe] are never picked there, even when they exist. *)
Theorem resolved_entry_exists w fs :
  normal_dir w (cwd w) = true ->
  match val (findLocalCodexEntrypoint w fs) with
  | Ret (Some entry) =>
      (exists p, In (p, entry) (documented_order w) /\ lookup_exists fs p = true) /\
      (platform w <> lit "win32" -> args entry = [] ->
         command entry = cwd w ++ lit "/node_modules/.bin/codex")
  | Ret None => forall c, In c (documented_order w) -> lookup_exists fs (fst c) = false
  | _ => False
  end.
Proof.
  intros _. destruct (find_spec w fs) as (-> & _). rewrite expected_documented.
  unfold documented_entrypoint.
  destruct (List.find _ _) as [[p entry]|] eqn:E; cbn [fmap option_fmap option_map snd].
  - pose proof (List.find_some _ _ E) as [Hin Hex]. cbn [fst] in Hex.
    split; [eauto|]. intros Hp Hargs.
    unfold documented_order, under in Hin. rewrite bool_decide_eq_false_2 in Hin by exact Hp.
    destruct Hin as [[= <- <-]|[[= <- <-]|[]]]; [discriminate Hargs|reflexivity].
  - intros c Hin. exact (List.find_none _ _ E c Hin).
Qed.

(** With the dependency installed under [/repo], the script is answered,
    with [/usr/bin/node] to run it. *)
Lemma resolved_entry_exists_witness :
  exists p,
    In (p, {| command := lit "/usr/bin/node";
              args := [lit "/repo/node_modules/@openai/codex/bin/codex.js"] |})
       (documented_order w_plain)
    /\ lookup_exists fs_repo p = true.
Proof.
  assert (Hn : normal_dir w_plain (cwd w_plain) = true) by (vm_compute; reflexivity).
  pose proof (resolved_entry_exists w_plain fs_repo Hn) as H.
  assert (E : val (findLocalCodexEntrypoint w_plain fs_repo)
              = Ret (Some {| command := lit "/usr/bin/node";
                             args := [lit "/repo/node_modules/@openai/codex/bin/codex.js"] |}))
    by (vm_compute; reflexivity).
  rewrite E in H. exact (proj1 H).
Defined.

(** ** The status for a missing configuration *)


(** ** The sub-processes of a run *)



